(** * Verification of the scan server ([src/server/app.py])

    A shallow embedding of the finding normalizer ([simplify_alerts]), the
    severity model ([risk_to_score] and the bucket comprehensions of [scan]),
    the advisory table ([enrich_suggestions]), the scan orchestration
    ([spider_and_get_alerts], [scan]) and the two AI entry points
    ([ai_analyze], [chat]), together with the properties the specification
    states about them.

    Conventions of the embedding.
    - A Python value that the handlers read from an alert is either [None]
      or a [str]; this is the shape of the records the ZAP API hands over
      (JSON objects with string values) and of the synthetic record that
      [scan] builds itself.
    - A Python [str] is a [string] (a sequence of bytes); case folding and
      white space stripping are the ASCII ones.
    - An exception is represented by its text, which is all the handlers
      ever look at ([str(e)] and the [{e}] of an f-string).
    - The JSON body of a request has the documented shape: [url] and
      [message] are strings, [level] is an integer, [include_scan] a
      boolean, and any of them may be missing.
    - The handlers run in a state monad with exceptions over the clock, the
      state of the outside world and the global [last_scan]. The two
      polling loops take a bound on their iterations ([fuel]); with
      [enough_fuel] it is never reached, since every iteration that does
      not leave the loop sleeps one second and the loop leaves once 60,
      respectively 90, seconds have passed. *)

From Stdlib Require Import ZArith Lia Ascii.
From stdpp Require Import base option list strings gmap pretty.

Local Open Scope Z_scope.

(** ** Python values and dictionaries *)

Module Py.

Inductive pyval : Type :=
| PNone
| PStr (s : string).

#[global] Instance pyval_eq_dec : EqDecision pyval.
Proof. solve_decision. Defined.

(** Truth value of an object: [None] and the empty string are false. *)
Definition truthy (v : pyval) : bool :=
  match v with
  | PNone => false
  | PStr s => negb (String.eqb s "")
  end.

(** [x or y] *)
Definition por (x y : pyval) : pyval := if truthy x then x else y.

(** [a.get(k)] on a dictionary with string keys. *)
Definition dict_get (a : gmap string pyval) (k : string) : pyval :=
  default PNone (a !! k).

(** How an f-string prints a value. *)
Definition format (v : pyval) : string :=
  match v with
  | PNone => "None"
  | PStr s => s
  end.

(** [list(dict.fromkeys(xs))]: the keys are inserted one after the other,
    and a key that is already present keeps its place. *)
Definition fromkeys_insert {A} `{EqDecision A} (acc : list A) (x : A) : list A :=
  if bool_decide (x ∈ acc) then acc else acc ++ [x].

Definition fromkeys {A} `{EqDecision A} (xs : list A) : list A :=
  foldl fromkeys_insert [] xs.

End Py.
Import Py.

Infix "|||" := por (at level 50, left associativity).

(** A raw finding, as the scan engine returns it. *)
Abbreviation alert := (gmap string pyval).

(** ** Utilities *)

(** [d.get(k, default)] on a dictionary kept as its list of items. *)
Fixpoint items_get {V : Type} (d : list (pyval * V)) (k : pyval) (dflt : V) : V :=
  match d with
  | [] => dflt
  | (k', v) :: d' => if decide (k = k') then v else items_get d' k dflt
  end.

Definition mapping : list (pyval * Z) :=
  [ (PStr "High", 9); (PStr "Medium", 6); (PStr "Low", 3);
    (PStr "Informational", 1); (PStr "Critical", 10) ].

Definition risk_to_score (risk : pyval) : Z := items_get mapping risk 0.

(** ** The normalizer, [simplify_alerts] *)

(** The accumulator the [defaultdict] creates for a new name. *)
Record info : Type := Info {
  i_urls : list pyval;
  i_params : list pyval;
  i_risk : pyval;
  i_description : pyval;
  i_solution : pyval;
  i_reference : pyval
}.

Definition default_info : info :=
  {| i_urls := []; i_params := []; i_risk := PNone;
     i_description := PStr ""; i_solution := PStr ""; i_reference := PStr "" |}.

Definition set_risk (v : pyval) (i : info) : info :=
  {| i_urls := i_urls i; i_params := i_params i; i_risk := v;
     i_description := i_description i; i_solution := i_solution i;
     i_reference := i_reference i |}.
Definition set_description (v : pyval) (i : info) : info :=
  {| i_urls := i_urls i; i_params := i_params i; i_risk := i_risk i;
     i_description := v; i_solution := i_solution i;
     i_reference := i_reference i |}.
Definition set_solution (v : pyval) (i : info) : info :=
  {| i_urls := i_urls i; i_params := i_params i; i_risk := i_risk i;
     i_description := i_description i; i_solution := v;
     i_reference := i_reference i |}.
Definition set_reference (v : pyval) (i : info) : info :=
  {| i_urls := i_urls i; i_params := i_params i; i_risk := i_risk i;
     i_description := i_description i; i_solution := i_solution i;
     i_reference := v |}.
Definition append_url (v : pyval) (i : info) : info :=
  {| i_urls := i_urls i ++ [v]; i_params := i_params i; i_risk := i_risk i;
     i_description := i_description i; i_solution := i_solution i;
     i_reference := i_reference i |}.
Definition append_param (v : pyval) (i : info) : info :=
  {| i_urls := i_urls i; i_params := i_params i ++ [v]; i_risk := i_risk i;
     i_description := i_description i; i_solution := i_solution i;
     i_reference := i_reference i |}.

(** [grouped]: a [defaultdict], which iterates in insertion order, hence a
    list of bindings with distinct keys in the order the keys arrived. *)
Abbreviation grouped := (list (pyval * info)).

Fixpoint grouped_lookup (name : pyval) (g : grouped) : option info :=
  match g with
  | [] => None
  | (k, i) :: g' => if decide (name = k) then Some i else grouped_lookup name g'
  end.

(** The accumulator that [grouped[name]] denotes, the default one when the
    name is not there yet. *)
Definition grouped_get (name : pyval) (g : grouped) : info :=
  default default_info (grouped_lookup name g).

(** [grouped[name][...] = ...] and [grouped[name][...].append(...)]: the
    subscript creates the default accumulator for a missing name, at the end
    of the dictionary, and the accumulator is then changed in place. *)
Fixpoint grouped_modify (name : pyval) (f : info -> info) (g : grouped) : grouped :=
  match g with
  | [] => [(name, f default_info)]
  | (k, i) :: g' =>
      if decide (name = k) then (k, f i) :: g'
      else (k, i) :: grouped_modify name f g'
  end.

(** The fallback chains of the loop body (lines 69 to 73, 83 and 86). *)
Definition alert_name (a : alert) : pyval :=
  dict_get a "alert" ||| dict_get a "name" ||| PStr "Unknown".
Definition alert_risk (a : alert) : pyval :=
  dict_get a "risk" ||| dict_get a "riskdesc" ||| dict_get a "severity"
    ||| PStr "Informational".
Definition alert_desc (a : alert) : pyval :=
  dict_get a "description" ||| dict_get a "desc" ||| dict_get a "evidence"
    ||| dict_get a "url" ||| PStr "".
Definition alert_solution (a : alert) : pyval :=
  dict_get a "solution" ||| dict_get a "solutions" ||| PStr "".
Definition alert_reference (a : alert) : pyval :=
  dict_get a "reference" ||| dict_get a "references" ||| PStr "".
Definition alert_url (a : alert) : pyval :=
  dict_get a "url" ||| dict_get a "uri".
Definition alert_param (a : alert) : pyval := dict_get a "param".

(** One iteration of [for a in alerts]. *)
Definition simplify_step (g : grouped) (a : alert) : grouped :=
  let name := alert_name a in
  let risk := alert_risk a in
  let desc := alert_desc a in
  let solution := alert_solution a in
  let reference := alert_reference a in
  let g := grouped_modify name (set_risk risk) g in
  let g := if truthy desc then grouped_modify name (set_description desc) g else g in
  let g := if truthy solution then grouped_modify name (set_solution solution) g else g in
  let g := if truthy reference then grouped_modify name (set_reference reference) g else g in
  let url := alert_url a in
  let g := if truthy url then grouped_modify name (append_url url) g else g in
  let param := alert_param a in
  let g := if truthy param then grouped_modify name (append_param param) g else g in
  g.

(** The state of [grouped] after the first loop. *)
Definition group_alerts (alerts : list alert) : grouped :=
  foldl simplify_step [] alerts.

(** A normalized finding: one dictionary of the list [simplified]. *)
Record finding : Type := Finding {
  f_name : pyval;
  f_risk : pyval;
  f_urls : list pyval;
  f_params : list pyval;
  f_description : pyval;
  f_solution : pyval;
  f_reference : pyval
}.

Definition emit (entry : pyval * info) : finding :=
  {| f_name := entry.1;
     f_risk := i_risk entry.2;
     f_urls := fromkeys (i_urls entry.2);
     f_params := fromkeys (i_params entry.2);
     f_description := i_description entry.2;
     f_solution := i_solution entry.2;
     f_reference := i_reference entry.2 |}.

Definition simplify_alerts (alerts : list alert) : list finding :=
  emit <$> group_alerts alerts.

(** ** Strings *)

Definition nl : string := String (ascii_of_nat 10) "".

(** [sep.join(parts)] *)
Fixpoint join (sep : string) (parts : list string) : string :=
  match parts with
  | [] => ""
  | [p] => p
  | p :: rest => p +:+ sep +:+ join sep rest
  end.

Definition lower_ascii (c : ascii) : ascii :=
  let n := nat_of_ascii c in
  if ((65 <=? n) && (n <=? 90))%nat then ascii_of_nat (n + 32) else c.

(** [s.lower()] *)
Fixpoint lower (s : string) : string :=
  match s with
  | EmptyString => EmptyString
  | String c s' => String (lower_ascii c) (lower s')
  end.

(** [s.startswith(p)] *)
Fixpoint startswith (p s : string) : bool :=
  match p, s with
  | EmptyString, _ => true
  | String a p', String b s' => if Ascii.eqb a b then startswith p' s' else false
  | String _ _, EmptyString => false
  end.

(** [sub in s] *)
Fixpoint contains (sub s : string) : bool :=
  startswith sub s ||
  match s with
  | EmptyString => false
  | String _ s' => contains sub s'
  end.

(** The white space of [str.strip()] in the ASCII range. *)
Definition is_space (c : ascii) : bool :=
  let n := nat_of_ascii c in
  ((9 <=? n) && (n <=? 13) || (28 <=? n) && (n <=? 32))%nat.

Fixpoint lstrip (s : string) : string :=
  match s with
  | EmptyString => EmptyString
  | String c s' => if is_space c then lstrip s' else s
  end.

(** [s.strip()] *)
Definition strip (s : string) : string :=
  String.rev (lstrip (String.rev (lstrip s))).

(** The text of a value on which the source calls a [str] method; every
    such value is an [x or ""], never [None]. *)
Definition str_of (v : pyval) : string :=
  match v with
  | PNone => ""
  | PStr s => s
  end.

(** ** Scoring, advice and buckets (lines 46 to 60 and 196 to 206) *)

(** A finding once [scan] has added its score and, possibly, its advice:
    [v_extra_suggestion] is [None] when the key is absent. *)
Record vuln : Type := Vuln {
  v_finding : finding;
  v_score : Z;
  v_extra_suggestion : option string
}.

Definition CUSTOM_SUGGESTIONS : list (string * string) :=
  [ ("Cross Site Scripting",
     "Validate and sanitize inputs. Use CSP headers and avoid inline JS.");
    ("SQL Injection",
     "Use parameterized queries/ORM. Never concatenate user input into SQL.");
    ("Insecure Cookies",
     "Enable HttpOnly, Secure, SameSite attributes on cookies.");
    ("CSP",
     "Add strong Content-Security-Policy headers to block inline scripts.");
    ("CORS",
     "Restrict allowed origins to trusted domains and avoid '*'.") ].

Fixpoint first_suggestion (table : list (string * string)) (name : pyval)
  : option string :=
  match table with
  | [] => None
  | (key, suggestion) :: table' =>
      if contains (lower key) (lower (str_of (name ||| PStr "")))
      then Some suggestion
      else first_suggestion table' name
  end.

Definition enrich_suggestions (a : vuln) : vuln :=
  match first_suggestion CUSTOM_SUGGESTIONS (f_name (v_finding a)) with
  | Some suggestion =>
      {| v_finding := v_finding a; v_score := v_score a;
         v_extra_suggestion := Some suggestion |}
  | None => a
  end.

(** [a['score'] = risk_to_score(a.get('risk', ''))] *)
Definition add_score (a : finding) : vuln :=
  {| v_finding := a; v_score := risk_to_score (f_risk a);
     v_extra_suggestion := None |}.

(** The list [final] of [scan]. *)
Definition score_findings (simplified : list finding) : list vuln :=
  (fun a => enrich_suggestions (add_score a)) <$> simplified.

Definition in_critical (score : Z) : bool := 9 <=? score.
Definition in_high (score : Z) : bool := (6 <=? score) && (score <? 9).
Definition in_medium (score : Z) : bool := (3 <=? score) && (score <? 6).
Definition in_low (score : Z) : bool := score <? 3.

(** The dictionary [grouped] of [scan], in the order of its keys. *)
Definition bucket_findings (final : list vuln) : list (string * list vuln) :=
  [ ("Critical", List.filter (fun v => in_critical (v_score v)) final);
    ("High", List.filter (fun v => in_high (v_score v)) final);
    ("Medium", List.filter (fun v => in_medium (v_score v)) final);
    ("Low", List.filter (fun v => in_low (v_score v)) final) ].

(** [{k: len(v) for k, v in grouped.items()}] *)
Definition summarize (buckets : list (string * list vuln)) : list (string * Z) :=
  (fun kv => (kv.1, Z.of_nat (length kv.2))) <$> buckets.

(** ** Reports, responses and the world the handlers run in *)

(** The dictionary [report] of [scan]; [ascan_id] is [None] for [null]. *)
Record report : Type := Report {
  r_target : string;
  r_level : Z;
  r_summary : list (string * Z);
  r_vulnerabilities : list vuln;
  r_ai_summary : string;
  r_timestamp : string;
  r_ascan_id : option string
}.

(** The JSON body of a response and its status code. *)
Inductive body : Type :=
| JError (error : string)
| JReport (r : report)
| JReply (reply : string).

Record response : Type := Response { status : Z; payload : body }.

(** What a call to an external service does: it returns or it raises. *)
Inductive answer (A : Type) : Type :=
| Returns (a : A)
| Throws (e : string).
Arguments Returns {A} a.
Arguments Throws {A} e.

(** The collaborators of the handlers: the ZAP client, the generative
    model, the URL validator and the wall clock's date. [E] is the state of
    the outside world; every call may change it, whether it returns or
    raises. The status calls stand for [int(zap.spider.status(id))] and
    [int(zap.ascan.status(id))]: reading the status and parsing it. The two
    [scan] calls return the identifier of the job they started, a string. *)
Record services (E : Type) : Type := Services {
  validators_url : string -> bool;
  zap_urlopen : string -> E -> answer unit * E;
  zap_spider_scan : string -> E -> answer string * E;
  zap_spider_status : string -> E -> answer Z * E;
  zap_core_alerts : string -> E -> answer (list alert) * E;
  zap_ascan_scan : string -> E -> answer string * E;
  zap_ascan_status : string -> E -> answer Z * E;
  generate_content : string -> E -> answer string * E;
  utcnow_strftime : E -> string
}.
Arguments validators_url {E} _ _.
Arguments zap_urlopen {E} _ _ _.
Arguments zap_spider_scan {E} _ _ _.
Arguments zap_spider_status {E} _ _ _.
Arguments zap_core_alerts {E} _ _ _.
Arguments zap_ascan_scan {E} _ _ _.
Arguments zap_ascan_status {E} _ _ _.
Arguments generate_content {E} _ _ _.
Arguments utcnow_strftime {E} _ _.

(** The state of the process: the clock that [time.time()] reads, in
    seconds, the outside world, and the global [last_scan] ([None] for the
    empty dictionary). The clock is a logical one: [time.sleep] advances it
    and nothing else does; calls that took time would only make the loops
    leave earlier. *)
Record world (E : Type) : Type := World {
  clock : Z;
  ext : E;
  last_scan : option report
}.
Arguments World {E} _ _ _.
Arguments clock {E} _.
Arguments ext {E} _.
Arguments last_scan {E} _.

(** How a piece of handler code ends: with a value, with an exception, or,
    for the model only, by exhausting the bound on loop iterations. *)
Inductive outcome (A : Type) : Type :=
| Ok (a : A)
| Raise (e : string)
| OutOfFuel.
Arguments Ok {A} a.
Arguments Raise {A} e.
Arguments OutOfFuel {A}.

Section Monad.

Context {E : Type}.

Definition M (A : Type) : Type := world E -> outcome A * world E.

Definition ret {A} (a : A) : M A := fun w => (Ok a, w).

Definition bind {A B} (m : M A) (k : A -> M B) : M B :=
  fun w =>
    match m w with
    | (Ok a, w') => k a w'
    | (Raise e, w') => (Raise e, w')
    | (OutOfFuel, w') => (OutOfFuel, w')
    end.

(** [try: m except Exception as e: handler e] *)
Definition try_except {A} (m : M A) (handler : string -> M A) : M A :=
  fun w =>
    match m w with
    | (Raise e, w') => handler e w'
    | r => r
    end.

Definition out_of_fuel {A} : M A := fun w => (OutOfFuel, w).

(** A call to one of the services. *)
Definition call {A} (f : E -> answer A * E) : M A :=
  fun w =>
    let (r, e') := f (ext w) in
    (match r with Returns a => Ok a | Throws e => Raise e end,
     World (clock w) e' (last_scan w)).

Definition time_time : M Z := fun w => (Ok (clock w), w).

Definition time_sleep (seconds : Z) : M unit :=
  fun w => (Ok tt, World (clock w + seconds) (ext w) (last_scan w)).

Definition read_last_scan : M (option report) := fun w => (Ok (last_scan w), w).

(** [last_scan.clear(); last_scan.update(report)] *)
Definition replace_last_scan (r : report) : M unit :=
  fun w => (Ok tt, World (clock w) (ext w) (Some r)).

End Monad.

Arguments M E A : clear implicits.

Notation "'let!' x := m 'in' k" := (bind m (fun x => k))
  (at level 10, x pattern, m at level 200, k at level 200).
Notation "'run!' m 'in' k" := (bind m (fun _ => k))
  (at level 10, m at level 200, k at level 200).

Section Handlers.

Context {E : Type} (svc : services E).

(** [datetime.utcnow().strftime(...)] *)
Definition now_text : M E string :=
  fun w => (Ok (utcnow_strftime svc (ext w)), w).

(** ** Scanning helpers *)

(** The [while True] loop of [spider_and_get_alerts]; a failing status
    read counts as status 0. *)
Fixpoint spider_poll (fuel : nat) (spider_id : string) (start timeout : Z)
  : M E unit :=
  match fuel with
  | O => out_of_fuel
  | S fuel' =>
      let! st := try_except (call (zap_spider_status svc spider_id))
                            (fun _ => ret 0) in
      let! now := time_time in
      if (100 <=? st) || (timeout <? now - start) then ret tt
      else run! time_sleep 1 in spider_poll fuel' spider_id start timeout
  end.

(** The target with the scheme that the engine requires (lines 107, 108). *)
Definition with_scheme (target : string) : string :=
  if startswith "http" target then target else "http://" +:+ target.

Definition spider_and_get_alerts (fuel : nat) (target : string) (timeout : Z)
  : M E (list alert) :=
  let target := with_scheme target in
  run! call (zap_urlopen svc target) in
  run! time_sleep 1 in
  let! spider_id := call (zap_spider_scan svc target) in
  let! start := time_time in
  run! spider_poll fuel spider_id start timeout in
  run! time_sleep 1 in
  call (zap_core_alerts svc target).

(** ** AI helpers *)

Definition finding_line (f : vuln) : string :=
  "- " +:+ format (f_name (v_finding f)) +:+ " (" +:+ format (f_risk (v_finding f))
    +:+ ") : " +:+ format (f_description (v_finding f)).

Definition analyze_prompt (findings : list vuln) (target : string) (level : Z)
  : string :=
  let trimmed := take 10 findings in
  let findings_text := join nl (finding_line <$> trimmed) in
  nl +:+ "You are a concise security analyst. A web scan was performed on "
     +:+ target +:+ " with level " +:+ pretty level +:+ "." +:+ nl
     +:+ "Findings:" +:+ nl
     +:+ findings_text +:+ nl
     +:+ nl
     +:+ "Please:" +:+ nl
     +:+ "1) Prioritize the most severe 3 issues and explain their real-world impact in simple language." +:+ nl
     +:+ "2) Give short, practical remediation steps (show code snippets only when relevant)." +:+ nl
     +:+ "3) Suggest which issues an attacker would try first." +:+ nl
     +:+ "Keep the answer short and actionable." +:+ nl.

Definition ai_analyze (findings : list vuln) (target : string) (level : Z)
  : M E string :=
  try_except
    (call (generate_content svc (analyze_prompt findings target level)))
    (fun e => ret ("[AI summary unavailable: " +:+ e +:+ "]")).

(** ** API routes *)

(** The record that level 3 appends to the alerts. *)
Definition synthetic_alert (target : string) : alert :=
  {[ "alert" := PStr "Missing WAF/Firewall headers";
     "risk" := PStr "Medium";
     "url" := PStr target;
     "param" := PNone;
     "evidence" := PNone;
     "description" :=
       PStr "Response lacks typical WAF headers indicating a web application firewall.";
     "solution" := PStr "Deploy a WAF or reverse proxy and add relevant headers.";
     "reference" := PStr "https://owasp.org/www-project-top-ten/" ]}.

(** The [while] loop of the active scan: a failing status read raises. *)
Fixpoint ascan_poll (fuel : nat) (ascan_id : string) (start : Z) : M E unit :=
  match fuel with
  | O => out_of_fuel
  | S fuel' =>
      let! st := call (zap_ascan_status svc ascan_id) in
      if st <? 100 then
        let! now := time_time in
        if 90 <? now - start then ret tt
        else run! time_sleep 1 in ascan_poll fuel' ascan_id start
      else ret tt
  end.

(** Lines 168 to 193 of [scan]: the raw alerts that go to the normalizer
    and the identifier of the active scan. *)
Definition scan_collect (fuel : nat) (target : string) (level : Z)
  : M E (list alert * option string) :=
  let! alerts := spider_and_get_alerts fuel target 60 in
  let! (alerts, ascan_id) :=
    (if 2 <=? level then
       let! ascan_id := call (zap_ascan_scan svc target) in
       let! start := time_time in
       run! ascan_poll fuel ascan_id start in
       let! alerts := call (zap_core_alerts svc target) in
       ret (alerts, Some ascan_id)
     else ret (alerts, None)) in
  let alerts := if level =? 3 then alerts ++ [synthetic_alert target] else alerts in
  ret (alerts, ascan_id).

(** Lines 195 to 218: the report built from the raw alerts. *)
Definition scan_report (alerts : list alert) (ascan_id : option string)
    (target : string) (level : Z) : M E report :=
  let simplified := simplify_alerts alerts in
  let final := score_findings simplified in
  let grouped := bucket_findings final in
  let! ai_summary := ai_analyze final target level in
  let! timestamp := now_text in
  ret {| r_target := target;
         r_level := level;
         r_summary := summarize grouped;
         r_vulnerabilities := final;
         r_ai_summary := ai_summary;
         r_timestamp := timestamp;
         r_ascan_id := ascan_id |}.

(** The body of the [try] of [scan], lines 167 to 224. *)
Definition scan_steps (fuel : nat) (target : string) (level : Z) : M E response :=
  let! (alerts, ascan_id) := scan_collect fuel target level in
  let! report := scan_report alerts ascan_id target level in
  run! replace_last_scan report in
  ret (Response 200 (JReport report)).

(** The JSON body of a scan request that follows the interface
    [{url: string, level: int}]; a missing key is [None]. *)
Record scan_request : Type := ScanRequest {
  q_url : option string;
  q_level : option Z
}.

(** [data.get('url', '').strip()] and [int(data.get('level', 1))] *)
Definition requested_target (data : scan_request) : string :=
  strip (default "" (q_url data)).
Definition requested_level (data : scan_request) : Z :=
  default 1 (q_level data).

Definition scan (fuel : nat) (data : scan_request) : M E response :=
  let target := requested_target data in
  let level := requested_level data in
  if String.eqb target "" || negb (validators_url svc target) then
    ret (Response 400
           (JError "Invalid or missing URL. Please include http:// or https://"))
  else
    try_except (scan_steps fuel target level)
               (fun e => ret (Response 500 (JError e))).

(** The body of a chat request, [{message: string, include_scan: bool}]. *)
Record chat_request : Type := ChatRequest {
  q_message : option string;
  q_include_scan : bool
}.

(** How an f-string prints the dictionary of the summary counts. *)
Definition summary_text (summary : list (string * Z)) : string :=
  "{" +:+ join ", " ((fun kv => "'" +:+ kv.1 +:+ "': " +:+ pretty kv.2) <$> summary)
      +:+ "}".

Definition brief_line (v : vuln) : string :=
  "- " +:+ format (f_name (v_finding v)) +:+ " (" +:+ format (f_risk (v_finding v))
    +:+ "): " +:+ format (f_description (v_finding v)) +:+ nl.

Definition chat_brief (r : report) : string :=
  let brief :=
    nl +:+ nl +:+ "Latest scan target: " +:+ r_target r +:+ nl
       +:+ "Summary counts: " +:+ summary_text (r_summary r) +:+ nl
       +:+ "Top findings:" +:+ nl in
  foldl (fun brief v => brief +:+ brief_line v) brief (take 8 (r_vulnerabilities r)).

Definition chat_prompt (message : string) (include_scan : bool)
    (store : option report) : string :=
  let system_prompt :=
    "You are a helpful security assistant. Answer concisely and clearly." in
  let prompt := system_prompt +:+ nl +:+ "User: " +:+ message in
  match store with
  | Some r => if include_scan then prompt +:+ chat_brief r else prompt
  | None => prompt
  end.

(** [data.get("message", "").strip()] *)
Definition requested_message (data : chat_request) : string :=
  strip (default "" (q_message data)).

Definition chat (data : chat_request) : M E response :=
  let message := requested_message data in
  let include_scan := q_include_scan data in
  if String.eqb message "" then
    ret (Response 400 (JError "Message cannot be empty"))
  else
    try_except
      (let! store := read_last_scan in
       let prompt := chat_prompt message include_scan store in
       let! text := call (generate_content svc prompt) in
       ret (Response 200 (JReply text)))
      (fun e => ret (Response 500 (JError ("AI Chat unavailable: " +:+ e)))).

End Handlers.

(** ** Notions used to state the properties of the handlers *)

(** A computation that leaves [last_scan] as it found it, however it ends. *)
Definition keeps_store {E A} (m : world E -> outcome A * world E) : Prop :=
  ∀ w, last_scan (m w).2 = last_scan w.

(** A service call that returns whenever it is made. *)
Definition never_throws {E A B} (f : A -> E -> answer B * E) : Prop :=
  ∀ a e, ∃ b e', f a e = (Returns b, e').

(** An engine whose calls all return; the generative model and the spider's
    status read are left free to fail. *)
Record responsive {E} (svc : services E) : Prop := Responsive {
  urlopen_returns : never_throws (zap_urlopen svc);
  spider_scan_returns : never_throws (zap_spider_scan svc);
  core_alerts_returns : never_throws (zap_core_alerts svc);
  ascan_scan_returns : never_throws (zap_ascan_scan svc);
  ascan_status_returns : never_throws (zap_ascan_status svc)
}.

(** The exception text [e] is one that a service call raised. *)
Definition throws {E A B} (f : A -> E -> answer B * E) (e : string) : Prop :=
  ∃ a e0 e1, f a e0 = (Throws e, e1).

Definition engine_threw {E} (svc : services E) (e : string) : Prop :=
  throws (zap_urlopen svc) e ∨ throws (zap_spider_scan svc) e ∨
  throws (zap_core_alerts svc) e ∨ throws (zap_ascan_scan svc) e ∨
  throws (zap_ascan_status svc) e.

(** Enough iterations for either polling loop to reach its time bound. *)
Definition enough_fuel : nat := 92.

(** ** A simulated outside world, for running the handlers

    The state counts the calls made so far. The spider reports completion
    at once; the other answers are parameters. *)
Module Sim.

Definition services_of (alerts : list alert) (ascan_start : answer string)
    (ascan_status : answer Z) (generated : answer string) : services nat :=
  {| validators_url := fun s => startswith "http://" s || startswith "https://" s;
     zap_urlopen := fun _ n => (Returns tt, S n);
     zap_spider_scan := fun _ n => (Returns "0", S n);
     zap_spider_status := fun _ n => (Returns 100, S n);
     zap_core_alerts := fun _ n => (Returns alerts, S n);
     zap_ascan_scan := fun _ n => (ascan_start, S n);
     zap_ascan_status := fun _ n => (ascan_status, S n);
     generate_content := fun _ n => (generated, S n);
     utcnow_strftime := fun _ => "2024-01-01 00:00:00 UTC" |}.

Definition boot : world nat := World 0 O None.

Definition request (url : string) (level : Z) : scan_request :=
  {| q_url := Some url; q_level := Some level |}.

End Sim.

(** ** Notions the specification uses *)

(** First-seen order without repetition, as the specification words it: an
    element stays where it first occurs and its later occurrences go. *)
Fixpoint first_seen {A} `{EqDecision A} (xs : list A) : list A :=
  match xs with
  | [] => []
  | x :: xs' => x :: filter (fun y => y <> x) (first_seen xs')
  end.

(** The raw records that resolve to a given name, in input order. *)
Definition records_named (name : pyval) (alerts : list alert) : list alert :=
  filter (fun a => alert_name a = name) alerts.

(** The urls, and the params, that the records of a name contribute. *)
Definition seen_urls (name : pyval) (alerts : list alert) : list pyval :=
  filter (fun v => truthy v = true) (alert_url <$> records_named name alerts).
Definition seen_params (name : pyval) (alerts : list alert) : list pyval :=
  filter (fun v => truthy v = true) (alert_param <$> records_named name alerts).

(** What one record does to the accumulator of its name: the loop body
    with the dictionary lookups factored out. *)
Definition absorb (a : alert) (i : info) : info :=
  let i := set_risk (alert_risk a) i in
  let i := if truthy (alert_desc a) then set_description (alert_desc a) i else i in
  let i := if truthy (alert_solution a) then set_solution (alert_solution a) i else i in
  let i := if truthy (alert_reference a) then set_reference (alert_reference a) i else i in
  let i := if truthy (alert_url a) then append_url (alert_url a) i else i in
  let i := if truthy (alert_param a) then append_param (alert_param a) i else i in
  i.

(** The accumulator of a name once all its records are absorbed. *)
Definition absorb_named (name : pyval) (alerts : list alert) (i : info) : info :=
  foldl (fun i a => absorb a i) i (records_named name alerts).

(** The specification's reading of the risk of a group: the last non-empty
    risk label among the records of the name ([None] when there is none). *)
Definition raw_risk (a : alert) : pyval :=
  dict_get a "risk" ||| dict_get a "riskdesc" ||| dict_get a "severity".

Definition spec_last_nonempty_risk (name : pyval) (alerts : list alert) : pyval :=
  default PNone
    (last (filter (fun v => truthy v = true) (raw_risk <$> records_named name alerts))).

(** ** Sample inputs *)

(** The three raw findings of the end-to-end scenario. *)
Definition scenario_alerts : list alert :=
  [ {[ "alert" := PStr "XSS"; "risk" := PStr "High"; "url" := PStr "http://a/x" ]};
    {[ "alert" := PStr "XSS"; "risk" := PStr "High"; "url" := PStr "http://a/y" ]};
    {[ "alert" := PStr "SQLi"; "risk" := PStr "Critical" ]} ].

Definition scenario_xss : finding :=
  {| f_name := PStr "XSS"; f_risk := PStr "High";
     f_urls := [PStr "http://a/x"; PStr "http://a/y"]; f_params := [];
     f_description := PStr "http://a/y"; f_solution := PStr "";
     f_reference := PStr "" |}.

Definition scenario_sqli : finding :=
  {| f_name := PStr "SQLi"; f_risk := PStr "Critical";
     f_urls := []; f_params := [];
     f_description := PStr ""; f_solution := PStr "";
     f_reference := PStr "" |}.

(** A record with a risk and a description, and a later record of the same
    name that carries a url and nothing else. *)
Definition described_record : alert :=
  {[ "alert" := PStr "XSS"; "risk" := PStr "High";
     "description" := PStr "Reflected script" ]}.

Definition url_only_record : alert :=
  {[ "alert" := PStr "XSS"; "url" := PStr "http://a/x" ]}.

(** An engine whose active scan stays at 50 percent, with a generative
    model that fails; and an engine whose active scan cannot be polled. *)
Definition stalled_engine : services nat :=
  Sim.services_of scenario_alerts (Returns "1") (Returns 50) (Throws "quota exceeded").

Definition broken_engine : services nat :=
  Sim.services_of scenario_alerts (Returns "1") (Throws "ZAP is not reachable")
    (Returns "All clear.").

(** ** Further notions *)

(** The last value of a sequence that counts as true, the empty string when
    there is none. *)
Definition last_truthy (values : list pyval) : pyval :=
  default (PStr "") (last (filter (fun v => truthy v = true) values)).

(** A string whose characters are all in the ASCII range; on such strings
    [lower] is [str.lower]. *)
Fixpoint is_ascii (s : string) : bool :=
  match s with
  | EmptyString => true
  | String c s' => (nat_of_ascii c <? 128)%nat && is_ascii s'
  end.


(** A computation that neither reads nor writes [last_scan]: run with
    another store it ends the same way, with the same clock and outside
    world, and with that other store. *)
Definition ignores_store {E A} (m : M E A) : Prop :=
  ∀ w s,
    m (World (clock w) (ext w) s) =
      ((m w).1, World (clock (m w).2) (ext (m w).2) s).

(** Two sets of services that differ at most in the two calls of the
    active scan. *)
Record agree_off_active_scan {E} (svc1 svc2 : services E) : Prop := AgreeOff {
  same_validators_url : validators_url svc1 = validators_url svc2;
  same_urlopen : zap_urlopen svc1 = zap_urlopen svc2;
  same_spider_scan : zap_spider_scan svc1 = zap_spider_scan svc2;
  same_spider_status : zap_spider_status svc1 = zap_spider_status svc2;
  same_core_alerts : zap_core_alerts svc1 = zap_core_alerts svc2;
  same_generate_content : generate_content svc1 = generate_content svc2;
  same_utcnow_strftime : utcnow_strftime svc1 = utcnow_strftime svc2
}.

(** An engine like [stalled_engine] but without an active scanner. *)
Definition passive_engine : services nat :=
  Sim.services_of scenario_alerts (Throws "no active scanner")
    (Throws "no active scanner") (Throws "quota exceeded").

(** An engine whose spider never answers a status read. *)
Definition silent_spider_engine : services nat :=
  {| validators_url := validators_url stalled_engine;
     zap_urlopen := zap_urlopen stalled_engine;
     zap_spider_scan := zap_spider_scan stalled_engine;
     zap_spider_status := fun _ n => (Throws "spider status unavailable", S n);
     zap_core_alerts := zap_core_alerts stalled_engine;
     zap_ascan_scan := zap_ascan_scan stalled_engine;
     zap_ascan_status := zap_ascan_status stalled_engine;
     generate_content := generate_content stalled_engine;
     utcnow_strftime := utcnow_strftime stalled_engine |}.

(** Records of two other names. *)
Definition csp_record : alert :=
  {[ "name" := PStr "CSP header not set"; "severity" := PStr "Medium";
     "uri" := PStr "http://a/"; "param" := PStr "Content-Security-Policy";
     "solutions" := PStr "Set the header." ]}.

Definition anonymous_record : alert :=
  {[ "url" := PStr "http://a/z"; "references" := PStr "https://owasp.org/" ]}.

(** * Properties *)

(** ** [dict.fromkeys] keeps the first occurrences *)

Section Fromkeys.

Context {A : Type} `{EqDecision A}.
Implicit Types (x : A) (l acc : list A).

Lemma fromkeys_snoc l x :
  fromkeys (l ++ [x]) = fromkeys_insert (fromkeys l) x.
Proof. unfold fromkeys. by rewrite foldl_snoc. Qed.

Lemma fromkeys_insert_elem acc x y :
  y ∈ fromkeys_insert acc x ↔ y ∈ acc ∨ y = x.
Proof.
  unfold fromkeys_insert. case_bool_decide as Hx.
  - split; [by left|]. intros [?| ->]; done.
  - rewrite elem_of_app, list_elem_of_singleton. done.
Qed.

Lemma foldl_fromkeys_insert_elem l acc y :
  y ∈ foldl fromkeys_insert acc l ↔ y ∈ acc ∨ y ∈ l.
Proof.
  revert acc. induction l as [|x l IH]; intros acc; simpl.
  - rewrite elem_of_nil. tauto.
  - rewrite IH, fromkeys_insert_elem, elem_of_cons. tauto.
Qed.

Lemma elem_of_fromkeys l y : y ∈ fromkeys l ↔ y ∈ l.
Proof.
  unfold fromkeys. rewrite foldl_fromkeys_insert_elem, elem_of_nil. tauto.
Qed.

Lemma fromkeys_insert_NoDup acc x : NoDup acc → NoDup (fromkeys_insert acc x).
Proof.
  intros Hnd. unfold fromkeys_insert. case_bool_decide as Hx; [done|].
  apply NoDup_app. split_and!; [done| |apply NoDup_singleton].
  intros y Hy ->%list_elem_of_singleton. done.
Qed.

Lemma foldl_fromkeys_insert_NoDup l acc :
  NoDup acc → NoDup (foldl fromkeys_insert acc l).
Proof.
  revert acc. induction l as [|x l IH]; intros acc Hnd; simpl; [done|].
  by apply IH, fromkeys_insert_NoDup.
Qed.

Lemma fromkeys_NoDup l : NoDup (fromkeys l).
Proof. apply foldl_fromkeys_insert_NoDup, NoDup_nil_2. Qed.

(** Folding the insertions from any accumulator appends what is new, in
    first-seen order. *)
Lemma foldl_fromkeys_insert_first_seen l acc :
  foldl fromkeys_insert acc l = acc ++ filter (fun y => y ∉ acc) (first_seen l).
Proof.
  revert acc. induction l as [|x l IH]; intros acc; simpl.
  - by rewrite filter_nil, app_nil_r.
  - rewrite IH. unfold fromkeys_insert. case_bool_decide as Hx.
    + rewrite filter_cons_False by (intros Hn; by apply Hn).
      rewrite list_filter_filter. f_equal. apply list_filter_iff.
      intros y. split; [|by intros [? _]]. intros Hy. split; [done|].
      intros ->. done.
    + rewrite filter_cons_True by done.
      rewrite <- app_assoc. simpl. do 2 f_equal.
      rewrite list_filter_filter. apply list_filter_iff.
      intros y. rewrite elem_of_app, list_elem_of_singleton. tauto.
Qed.

Lemma fromkeys_first_seen l : fromkeys l = first_seen l.
Proof.
  unfold fromkeys. rewrite foldl_fromkeys_insert_first_seen. simpl.
  induction (first_seen l) as [|y k IH]; [done|].
  rewrite filter_cons_True by apply not_elem_of_nil. by rewrite IH.
Qed.

(** Inserting a key twice is inserting it once. *)
Lemma fromkeys_insert_twice acc x :
  fromkeys_insert (fromkeys_insert acc x) x = fromkeys_insert acc x.
Proof.
  unfold fromkeys_insert at 1. rewrite bool_decide_eq_true_2; [done|].
  apply fromkeys_insert_elem. by right.
Qed.

End Fromkeys.

(** ** The dictionary [grouped] *)

Lemma fromkeys_insert_cons_ne (k n : pyval) (l : list pyval) :
  n ≠ k → fromkeys_insert (k :: l) n = k :: fromkeys_insert l n.
Proof.
  intros Hne. unfold fromkeys_insert.
  destruct (decide (n ∈ l)) as [Hin|Hin].
  - rewrite !bool_decide_eq_true_2; [done|done|by right].
  - rewrite !bool_decide_eq_false_2; [done|done|].
    intros [?|?]%elem_of_cons; done.
Qed.

Lemma grouped_modify_keys name f (g : grouped) :
  (grouped_modify name f g).*1 = fromkeys_insert (g.*1) name.
Proof.
  induction g as [|[k i] g IH]; [done|].
  cbn [grouped_modify]. case_decide as Hk; rewrite !fmap_cons; cbn [fst].
  - subst k. unfold fromkeys_insert.
    rewrite bool_decide_eq_true_2; [done|by left].
  - by rewrite IH, fromkeys_insert_cons_ne.
Qed.

Lemma grouped_lookup_modify m name f (g : grouped) :
  grouped_lookup m (grouped_modify name f g) =
    if decide (m = name) then Some (f (grouped_get name g)) else grouped_lookup m g.
Proof.
  unfold grouped_get.
  induction g as [|[k i] g IH]; simpl.
  - repeat case_decide; done.
  - destruct (decide (name = k)) as [->|Hk]; simpl.
    + repeat case_decide; done.
    + rewrite IH. repeat case_decide; congruence.
Qed.

Lemma grouped_modify_modify name f1 f2 (g : grouped) :
  grouped_modify name f2 (grouped_modify name f1 g) =
    grouped_modify name (fun i => f2 (f1 i)) g.
Proof.
  induction g as [|[k i] g IH]; simpl.
  - by rewrite decide_True.
  - case_decide as Hk; simpl.
    + by rewrite decide_True.
    + by rewrite decide_False, IH.
Qed.

(** The loop body changes one accumulator, the one of the record's name. *)
Lemma simplify_step_modify (g : grouped) (a : alert) :
  simplify_step g a = grouped_modify (alert_name a) (absorb a) g.
Proof.
  unfold simplify_step, absorb.
  destruct (truthy (alert_desc a)), (truthy (alert_solution a)),
    (truthy (alert_reference a)), (truthy (alert_url a)),
    (truthy (alert_param a));
    rewrite ?grouped_modify_modify; reflexivity.
Qed.

Lemma simplify_step_keys (g : grouped) (a : alert) :
  (simplify_step g a).*1 = fromkeys_insert (g.*1) (alert_name a).
Proof. by rewrite simplify_step_modify, grouped_modify_keys. Qed.

Lemma foldl_simplify_step_keys (alerts : list alert) (g : grouped) :
  (foldl simplify_step g alerts).*1 =
    foldl fromkeys_insert (g.*1) (alert_name <$> alerts).
Proof.
  revert g. induction alerts as [|a alerts IH]; intros g; simpl; [done|].
  by rewrite IH, simplify_step_keys.
Qed.

Lemma group_alerts_keys (alerts : list alert) :
  (group_alerts alerts).*1 = fromkeys (alert_name <$> alerts).
Proof. apply foldl_simplify_step_keys. Qed.

Lemma group_alerts_snoc (alerts : list alert) (a : alert) :
  group_alerts (alerts ++ [a]) = simplify_step (group_alerts alerts) a.
Proof. unfold group_alerts. by rewrite foldl_snoc. Qed.

Lemma simplify_step_get name (g : grouped) (a : alert) :
  grouped_get name (simplify_step g a) =
    if decide (alert_name a = name) then absorb a (grouped_get name g)
    else grouped_get name g.
Proof.
  rewrite simplify_step_modify. unfold grouped_get at 1.
  rewrite grouped_lookup_modify.
  repeat case_decide; subst; done.
Qed.

Lemma records_named_cons name (a : alert) (alerts : list alert) :
  records_named name (a :: alerts) =
    if decide (alert_name a = name) then a :: records_named name alerts
    else records_named name alerts.
Proof.
  unfold records_named. rewrite filter_cons. by case_decide.
Qed.

Lemma foldl_simplify_step_get name (alerts : list alert) (g : grouped) :
  grouped_get name (foldl simplify_step g alerts) =
    absorb_named name alerts (grouped_get name g).
Proof.
  unfold absorb_named.
  revert g. induction alerts as [|a alerts IH]; intros g; simpl; [done|].
  rewrite IH, simplify_step_get, records_named_cons.
  by case_decide.
Qed.

Lemma grouped_lookup_elem name i (g : grouped) :
  NoDup (g.*1) → (name, i) ∈ g → grouped_lookup name g = Some i.
Proof.
  induction g as [|[k j] g IH]; simpl; intros Hnd Hin.
  - by apply elem_of_nil in Hin.
  - apply NoDup_cons in Hnd as [Hk Hnd].
    apply elem_of_cons in Hin as [Heq|Hin].
    + injection Heq as -> ->. by rewrite decide_True.
    + case_decide as Hname; [|by apply IH].
      subst k. exfalso. apply Hk.
      apply list_elem_of_fmap. by exists (name, i).
Qed.

Lemma grouped_lookup_Some name i (g : grouped) :
  grouped_lookup name g = Some i → (name, i) ∈ g.
Proof.
  induction g as [|[k j] g IH]; simpl; [done|].
  case_decide as Hname.
  - intros [= ->]. subst k. by left.
  - intros Hl. right. by apply IH.
Qed.

Lemma grouped_lookup_is_Some name (g : grouped) :
  name ∈ g.*1 → is_Some (grouped_lookup name g).
Proof.
  induction g as [|[k j] g IH]; simpl.
  - by intros ?%elem_of_nil.
  - intros [->|Hin]%elem_of_cons; case_decide; eauto. done.
Qed.

(** Every binding of [grouped] after the loop: its name occurs in the
    input, and its accumulator has absorbed exactly the records of that
    name, in input order. *)
Lemma group_alerts_entry name i (alerts : list alert) :
  (name, i) ∈ group_alerts alerts →
  name ∈ alert_name <$> alerts ∧ i = absorb_named name alerts default_info.
Proof.
  intros Hin. split.
  - apply elem_of_fromkeys. rewrite <- group_alerts_keys.
    apply list_elem_of_fmap. by exists (name, i).
  - pose proof (foldl_simplify_step_get name alerts []) as Hget.
    unfold grouped_get at 1 in Hget. fold (group_alerts alerts) in Hget.
    rewrite (grouped_lookup_elem name i) in Hget; [done| |done].
    rewrite group_alerts_keys. apply fromkeys_NoDup.
Qed.

Lemma group_alerts_lookup name (alerts : list alert) :
  name ∈ alert_name <$> alerts →
  grouped_lookup name (group_alerts alerts) =
    Some (absorb_named name alerts default_info).
Proof.
  intros Hin.
  destruct (grouped_lookup_is_Some name (group_alerts alerts)) as [i Hi].
  { rewrite group_alerts_keys. by apply elem_of_fromkeys. }
  rewrite Hi. f_equal.
  by apply grouped_lookup_Some, group_alerts_entry in Hi as [_ ->].
Qed.

(** ** What a record does to its accumulator *)

(** The cases of the five guards of the loop body. *)
Ltac absorb_cases a :=
  unfold absorb;
  destruct (truthy (alert_desc a)), (truthy (alert_solution a)),
    (truthy (alert_reference a)), (truthy (alert_url a)),
    (truthy (alert_param a)).

Lemma absorb_risk (a : alert) (i : info) : i_risk (absorb a i) = alert_risk a.
Proof.
  absorb_cases a; reflexivity.
Qed.

Lemma absorb_description (a : alert) (i : info) :
  i_description (absorb a i) =
    if truthy (alert_desc a) then alert_desc a else i_description i.
Proof.
  absorb_cases a; reflexivity.
Qed.

Lemma absorb_urls (a : alert) (i : info) :
  i_urls (absorb a i) =
    i_urls i ++ (if truthy (alert_url a) then [alert_url a] else []).
Proof.
  absorb_cases a; simpl; by rewrite ?app_nil_r.
Qed.

Lemma absorb_params (a : alert) (i : info) :
  i_params (absorb a i) =
    i_params i ++ (if truthy (alert_param a) then [alert_param a] else []).
Proof.
  absorb_cases a; simpl; by rewrite ?app_nil_r.
Qed.

Lemma foldl_absorb_urls (records : list alert) (i : info) :
  i_urls (foldl (fun i a => absorb a i) i records) =
    i_urls i ++ filter (fun v => truthy v = true) (alert_url <$> records).
Proof.
  revert i. induction records as [|a records IH]; intros i; simpl.
  - by rewrite filter_nil, app_nil_r.
  - rewrite IH, absorb_urls, filter_cons.
    destruct (truthy (alert_url a)) eqn:Hu; case_decide; try done.
    + by rewrite <- app_assoc.
    + by rewrite app_nil_r.
Qed.

Lemma foldl_absorb_params (records : list alert) (i : info) :
  i_params (foldl (fun i a => absorb a i) i records) =
    i_params i ++ filter (fun v => truthy v = true) (alert_param <$> records).
Proof.
  revert i. induction records as [|a records IH]; intros i; simpl.
  - by rewrite filter_nil, app_nil_r.
  - rewrite IH, absorb_params, filter_cons.
    destruct (truthy (alert_param a)) eqn:Hu; case_decide; try done.
    + by rewrite <- app_assoc.
    + by rewrite app_nil_r.
Qed.

Lemma absorb_named_app name (l1 l2 : list alert) (i : info) :
  absorb_named name (l1 ++ l2) i = absorb_named name l2 (absorb_named name l1 i).
Proof.
  unfold absorb_named, records_named. by rewrite filter_app, foldl_app.
Qed.

Lemma absorb_named_cons_eq (a : alert) (l : list alert) (i : info) :
  absorb_named (alert_name a) (a :: l) i = absorb_named (alert_name a) l (absorb a i).
Proof.
  unfold absorb_named. rewrite records_named_cons. by rewrite decide_True.
Qed.

Lemma absorb_named_none name (l : list alert) (i : info) :
  Forall (fun a => alert_name a ≠ name) l → absorb_named name l i = i.
Proof.
  intros Hl. unfold absorb_named, records_named.
  induction Hl as [|a l Ha _ IH]; [done|].
  rewrite filter_cons. by case_decide.
Qed.

(** The last record of a name that occurs in a list. *)
Lemma last_record_named name (alerts : list alert) :
  name ∈ alert_name <$> alerts →
  ∃ pre r post,
    alerts = pre ++ r :: post ∧ alert_name r = name ∧
    Forall (fun a => alert_name a ≠ name) post.
Proof.
  induction alerts as [|a alerts IH]; simpl.
  - by intros ?%elem_of_nil.
  - intros Hin.
    destruct (decide (name ∈ alert_name <$> alerts)) as [Hlater|Hlater].
    + destruct (IH Hlater) as (pre & r & post & -> & Hr & Hpost).
      by exists (a :: pre), r, post.
    + apply elem_of_cons in Hin as [Ha|?]; [|done].
      exists [], a, alerts. split_and!; [done|done|].
      apply Forall_forall. intros b Hb Hname. apply Hlater.
      apply list_elem_of_fmap. by exists b.
Qed.

(** ** The findings that [simplify_alerts] emits *)

Lemma simplify_alerts_names (alerts : list alert) :
  f_name <$> simplify_alerts alerts = fromkeys (alert_name <$> alerts).
Proof.
  unfold simplify_alerts. rewrite <- group_alerts_keys, <- list_fmap_compose.
  done.
Qed.

Lemma simplify_alerts_elem f (alerts : list alert) :
  f ∈ simplify_alerts alerts →
  f_name f ∈ alert_name <$> alerts ∧
  f = emit (f_name f, absorb_named (f_name f) alerts default_info).
Proof.
  unfold simplify_alerts.
  intros ([name i] & -> & Hin)%list_elem_of_fmap.
  apply group_alerts_entry in Hin as [Hname ->]. done.
Qed.

Lemma simplify_alerts_has name (alerts : list alert) :
  name ∈ alert_name <$> alerts →
  emit (name, absorb_named name alerts default_info) ∈ simplify_alerts alerts.
Proof.
  intros Hin. unfold simplify_alerts.
  apply list_elem_of_fmap. eexists. split; [done|].
  apply grouped_lookup_Some. by apply group_alerts_lookup.
Qed.

Example first_seen_sample :
  first_seen [1; 2; 1; 3; 2]%nat = [1; 2; 3]%nat ∧
  fromkeys [1; 2; 1; 3; 2]%nat = [1; 2; 3]%nat.
Proof. split; reflexivity. Qed.

(** C5. For every sequence of raw findings the normalizer emits exactly one
    group per distinct resolved name (the name being [alert], else [name],
    else "Unknown"), the groups come in the first-seen order of their
    names, and the urls and the params of each group are the values its
    records contributed, without duplicates and in first-seen order. *)
Theorem simplify_alerts_one_group_per_name (alerts : list alert) :
  (∀ a : alert,
     alert_name a =
       if truthy (dict_get a "alert") then dict_get a "alert"
       else if truthy (dict_get a "name") then dict_get a "name"
       else PStr "Unknown") ∧
  f_name <$> simplify_alerts alerts = first_seen (alert_name <$> alerts) ∧
  NoDup (f_name <$> simplify_alerts alerts) ∧
  (∀ name, name ∈ f_name <$> simplify_alerts alerts ↔ name ∈ alert_name <$> alerts) ∧
  Forall (fun f =>
            f_urls f = first_seen (seen_urls (f_name f) alerts) ∧
            NoDup (f_urls f) ∧
            f_params f = first_seen (seen_params (f_name f) alerts) ∧
            NoDup (f_params f))
         (simplify_alerts alerts).
Proof.
  split_and!.
  - intros a. unfold alert_name, por.
    destruct (truthy (dict_get a "alert")) eqn:Halert; [by rewrite Halert|].
    by destruct (truthy (dict_get a "name")) eqn:Hname; rewrite ?Hname.
  - by rewrite simplify_alerts_names, fromkeys_first_seen.
  - rewrite simplify_alerts_names. apply fromkeys_NoDup.
  - intros name. rewrite simplify_alerts_names. apply elem_of_fromkeys.
  - apply Forall_forall. intros f Hf.
    apply simplify_alerts_elem in Hf as [_ Hf].
    rewrite Hf. simpl. unfold absorb_named.
    rewrite foldl_absorb_urls, foldl_absorb_params. simpl.
    split_and!; try apply fromkeys_NoDup; apply fromkeys_first_seen.
Qed.

(** ** Re-ingesting a record *)

(** Two states of [grouped] that emit the same findings still do so after
    the accumulator of one name is changed in ways that agree on what is
    emitted. *)
Lemma grouped_modify_emit name f1 f2 (g1 g2 : grouped) :
  emit <$> g1 = emit <$> g2 →
  (∀ i1 i2, emit (name, i1) = emit (name, i2) →
            emit (name, f1 i1) = emit (name, f2 i2)) →
  emit <$> grouped_modify name f1 g1 = emit <$> grouped_modify name f2 g2.
Proof.
  intros Hg Hf. revert g2 Hg.
  induction g1 as [|[k1 i1] g1 IH]; intros [|[k2 i2] g2] Hg; try done.
  - simpl. f_equal. by apply Hf.
  - rewrite !fmap_cons in Hg.
    assert (emit (k1, i1) = emit (k2, i2)) as Hhead by congruence.
    assert (emit <$> g1 = emit <$> g2) as Htail by congruence.
    assert (k1 = k2) as <- by exact (f_equal f_name Hhead).
    cbn [grouped_modify]. case_decide as Hk; rewrite !fmap_cons.
    + subst k1. f_equal; [|done]. by apply Hf.
    + f_equal; [done|]. by apply IH.
Qed.

Lemma absorb_emit name (a : alert) (i1 i2 : info) :
  emit (name, i1) = emit (name, i2) →
  emit (name, absorb a i1) = emit (name, absorb a i2).
Proof.
  unfold emit. simpl. intros [= Hrisk Hurls Hparams Hdesc Hsol Href].
  rewrite !absorb_risk, !absorb_urls, !absorb_params.
  f_equal.
  - destruct (truthy (alert_url a)); rewrite ?app_nil_r; [|done].
    by rewrite !fromkeys_snoc, Hurls.
  - destruct (truthy (alert_param a)); rewrite ?app_nil_r; [|done].
    by rewrite !fromkeys_snoc, Hparams.
  - rewrite !absorb_description. by destruct (truthy (alert_desc a)).
  - absorb_cases a; simpl; done.
  - absorb_cases a; simpl; done.
Qed.

Lemma absorb_twice_emit name (a : alert) (i : info) :
  emit (name, absorb a (absorb a i)) = emit (name, absorb a i).
Proof.
  unfold emit. simpl.
  rewrite !absorb_risk, !absorb_urls, !absorb_params.
  f_equal.
  - destruct (truthy (alert_url a)); rewrite ?app_nil_r; [|done].
    by rewrite !fromkeys_snoc, fromkeys_insert_twice.
  - destruct (truthy (alert_param a)); rewrite ?app_nil_r; [|done].
    by rewrite !fromkeys_snoc, fromkeys_insert_twice.
  - rewrite !absorb_description. by destruct (truthy (alert_desc a)).
  - absorb_cases a; simpl; done.
  - absorb_cases a; simpl; done.
Qed.

Lemma simplify_step_emit (g1 g2 : grouped) (a : alert) :
  emit <$> g1 = emit <$> g2 →
  emit <$> simplify_step g1 a = emit <$> simplify_step g2 a.
Proof.
  intros Hg. rewrite !simplify_step_modify.
  apply grouped_modify_emit; [done|]. intros i1 i2. apply absorb_emit.
Qed.

Lemma foldl_simplify_step_emit (alerts : list alert) (g1 g2 : grouped) :
  emit <$> g1 = emit <$> g2 →
  emit <$> foldl simplify_step g1 alerts = emit <$> foldl simplify_step g2 alerts.
Proof.
  revert g1 g2. induction alerts as [|a alerts IH]; intros g1 g2 Hg; [done|].
  simpl. by apply IH, simplify_step_emit.
Qed.

Lemma simplify_step_twice_emit (g : grouped) (a : alert) :
  emit <$> simplify_step (simplify_step g a) a = emit <$> simplify_step g a.
Proof.
  rewrite !simplify_step_modify, grouped_modify_modify.
  apply grouped_modify_emit; [done|]. intros i1 i2 Hi.
  rewrite absorb_twice_emit. by apply absorb_emit.
Qed.

(** C7. Feeding a raw finding twice in a row yields the same grouped output
    as feeding it once, wherever in the sequence it stands. *)
Theorem simplify_alerts_duplicate (pre post : list alert) (r : alert) :
  simplify_alerts (pre ++ r :: r :: post) = simplify_alerts (pre ++ r :: post).
Proof.
  unfold simplify_alerts, group_alerts.
  rewrite !foldl_app. simpl.
  apply foldl_simplify_step_emit, simplify_step_twice_emit.
Qed.

(** ** Severity *)

Lemma bucket_exactly_one (score : Z) :
  Z.b2z (in_critical score) + Z.b2z (in_high score) +
  Z.b2z (in_medium score) + Z.b2z (in_low score) = 1.
Proof.
  unfold in_critical, in_high, in_medium, in_low.
  destruct (Z.leb_spec 9 score), (Z.leb_spec 6 score), (Z.leb_spec 3 score),
    (Z.ltb_spec score 9), (Z.ltb_spec score 6), (Z.ltb_spec score 3);
    simpl; lia.
Qed.

(** The four comprehensions of [scan] split the list [final]: the counts of
    the summary add up to the number of findings. *)
Lemma summary_counts_add_up (final : list vuln) :
  foldr (fun kv total => kv.2 + total) 0 (summarize (bucket_findings final)) =
    Z.of_nat (length final).
Proof.
  simpl. induction final as [|v final IH]; [done|].
  pose proof (bucket_exactly_one (v_score v)) as Hone.
  cbn [List.filter length].
  destruct (in_critical (v_score v)), (in_high (v_score v)),
    (in_medium (v_score v)), (in_low (v_score v));
    cbn [Z.b2z] in Hone; cbn [length]; lia.
Qed.

(** C6. [risk_to_score] is total: the five named labels have the scores of
    the table and every other value scores 0; and the four bucket tests
    partition the scores: each integer, and in particular each of 0..10,
    passes exactly one of them. *)
Theorem risk_to_score_total_and_buckets_partition :
  (∀ s : string,
     risk_to_score (PStr s) =
       if decide (s = "Critical") then 10
       else if decide (s = "High") then 9
       else if decide (s = "Medium") then 6
       else if decide (s = "Low") then 3
       else if decide (s = "Informational") then 1
       else 0) ∧
  risk_to_score PNone = 0 ∧
  (∀ score : Z,
     in_critical score = (9 <=? score) ∧
     in_high score = ((6 <=? score) && (score <? 9)) ∧
     in_medium score = ((3 <=? score) && (score <? 6)) ∧
     in_low score = (score <? 3) ∧
     Z.b2z (in_critical score) + Z.b2z (in_high score) +
     Z.b2z (in_medium score) + Z.b2z (in_low score) = 1) ∧
  (fun score => (in_critical score, in_high score, in_medium score, in_low score))
    <$> [0; 1; 2; 3; 4; 5; 6; 7; 8; 9; 10] =
    [ (false, false, false, true); (false, false, false, true);
      (false, false, false, true); (false, false, true, false);
      (false, false, true, false); (false, false, true, false);
      (false, true, false, false); (false, true, false, false);
      (false, true, false, false); (true, false, false, false);
      (true, false, false, false) ].
Proof.
  split_and!.
  - intros s. unfold risk_to_score, mapping. simpl.
    repeat case_decide; congruence.
  - reflexivity.
  - intros score. split_and!; try reflexivity. apply bucket_exactly_one.
  - reflexivity.
Qed.

(** ** The end-to-end scenario *)

(** C1, as the specification states it, fails: the summary of the scenario
    counts both findings as Critical, and the bucket High stays empty. *)
Lemma scenario_counts_two_critical :
  summarize (bucket_findings (score_findings (simplify_alerts scenario_alerts))) =
    [("Critical", 2); ("High", 0); ("Medium", 0); ("Low", 0)] ∧
  bucket_findings (score_findings (simplify_alerts scenario_alerts)) !! 1%nat =
    Some ("High", []) ∧
  summarize (bucket_findings (score_findings (simplify_alerts scenario_alerts))) ≠
    [("Critical", 1); ("High", 1); ("Medium", 0); ("Low", 0)].
Proof. split_and!; [by vm_compute|by vm_compute|]. by vm_compute. Qed.

(** C1, amended. The scenario normalizes to two findings; "XSS" has both
    urls and score 9, "SQLi" has score 10; both scores pass the test of the
    bucket Critical, so the summary is Critical 2, High 0, Medium 0, Low 0. *)
Theorem scenario_pipeline :
  simplify_alerts scenario_alerts = [scenario_xss; scenario_sqli] ∧
  f_urls scenario_xss = [PStr "http://a/x"; PStr "http://a/y"] ∧
  score_findings (simplify_alerts scenario_alerts) =
    [ Vuln scenario_xss 9 None; Vuln scenario_sqli 10 None ] ∧
  bucket_findings (score_findings (simplify_alerts scenario_alerts)) =
    [ ("Critical", [ Vuln scenario_xss 9 None; Vuln scenario_sqli 10 None ]);
      ("High", []); ("Medium", []); ("Low", []) ] ∧
  summarize (bucket_findings (score_findings (simplify_alerts scenario_alerts))) =
    [("Critical", 2); ("High", 0); ("Medium", 0); ("Low", 0)].
Proof. split_and!; by vm_compute. Qed.

(** ** Descriptions and risks across the records of a name *)

Lemma group_alerts_after (pre : list alert) (r : alert) :
  (group_alerts (pre ++ [r])).*1 =
    fromkeys_insert ((group_alerts pre).*1) (alert_name r) ∧
  grouped_lookup (alert_name r) (group_alerts (pre ++ [r])) =
    Some (absorb r (grouped_get (alert_name r) (group_alerts pre))).
Proof.
  rewrite group_alerts_snoc. split; [apply simplify_step_keys|].
  rewrite simplify_step_modify, grouped_lookup_modify. by rewrite decide_True.
Qed.

Lemma alert_desc_url_only (r : alert) :
  truthy (dict_get r "description") = false →
  truthy (dict_get r "desc") = false →
  truthy (dict_get r "evidence") = false →
  alert_desc r = dict_get r "url" ||| PStr "".
Proof.
  intros H1 H2 H3. unfold alert_desc, por at 1 2 3 4.
  by rewrite H1, H2, H3.
Qed.

(** C2, as the specification states it, fails: a record that carries only
    a url replaces the description that an earlier record of its name
    provided. *)
Lemma url_only_record_replaces_description :
  i_description <$>
    grouped_lookup (PStr "XSS") (group_alerts [described_record]) =
    Some (PStr "Reflected script") ∧
  i_description <$>
    grouped_lookup (PStr "XSS") (group_alerts ([described_record] ++ [url_only_record])) =
    Some (PStr "http://a/x") ∧
  truthy (dict_get url_only_record "url") = true ∧
  (dict_get url_only_record "description", dict_get url_only_record "desc",
   dict_get url_only_record "evidence") = (PNone, PNone, PNone) ∧
  PStr "http://a/x" ≠ PStr "Reflected script".
Proof. split_and!; by vm_compute. Qed.

(** C2, amended. A record that carries a url and no description, desc or
    evidence still creates or extends the group of its name, and gives the
    group its url both as a new element of urls and as its description,
    whatever description the group had. *)
Theorem url_only_record_sets_description (pre : list alert) (r : alert) :
  truthy (dict_get r "url") = true →
  truthy (dict_get r "description") = false →
  truthy (dict_get r "desc") = false →
  truthy (dict_get r "evidence") = false →
  (group_alerts (pre ++ [r])).*1 =
    fromkeys_insert ((group_alerts pre).*1) (alert_name r) ∧
  ∃ i,
    grouped_lookup (alert_name r) (group_alerts (pre ++ [r])) = Some i ∧
    i_description i = dict_get r "url" ∧
    i_urls i =
      i_urls (grouped_get (alert_name r) (group_alerts pre)) ++ [dict_get r "url"].
Proof.
  intros Hurl Hdescription Hdesc Hevidence.
  destruct (group_alerts_after pre r) as [Hkeys Hlookup].
  split; [done|]. eexists. split; [done|].
  assert (alert_desc r = dict_get r "url") as Hd.
  { rewrite alert_desc_url_only by done. unfold por. by rewrite Hurl. }
  assert (alert_url r = dict_get r "url") as Hu.
  { unfold alert_url, por. by rewrite Hurl. }
  rewrite absorb_description, absorb_urls, Hd, Hu, Hurl. done.
Qed.

Lemma url_only_record_sets_description_witness :
  (group_alerts ([described_record] ++ [url_only_record])).*1 =
    fromkeys_insert ((group_alerts [described_record]).*1)
      (alert_name url_only_record) ∧
  ∃ i,
    grouped_lookup (alert_name url_only_record)
      (group_alerts ([described_record] ++ [url_only_record])) = Some i ∧
    i_description i = dict_get url_only_record "url" ∧
    i_urls i =
      i_urls (grouped_get (alert_name url_only_record)
                (group_alerts [described_record]))
        ++ [dict_get url_only_record "url"].
Proof.
  apply (url_only_record_sets_description [described_record] url_only_record);
    reflexivity.
Defined.

(** A record with no description candidate at all, the url included,
    leaves the description of its group as it was. *)
Lemma record_without_description_keeps_it (pre : list alert) (r : alert) :
  truthy (alert_desc r) = false →
  i_description <$> grouped_lookup (alert_name r) (group_alerts (pre ++ [r])) =
    Some (i_description (grouped_get (alert_name r) (group_alerts pre))).
Proof.
  intros Hd. destruct (group_alerts_after pre r) as [_ ->]. simpl.
  by rewrite absorb_description, Hd.
Qed.

(** C3, as the specification states it, fails: a later record without a
    risk value turns the risk of its group into "Informational", while the
    last non-empty risk label among the records of the name is "High". *)
Lemma later_record_without_risk_resets_it :
  f_risk <$> simplify_alerts [described_record; url_only_record] =
    [PStr "Informational"] ∧
  spec_last_nonempty_risk (PStr "XSS") [described_record; url_only_record] =
    PStr "High" ∧
  raw_risk url_only_record = PNone.
Proof. split_and!; by vm_compute. Qed.

Lemma absorb_named_last_risk name (pre post : list alert) (r : alert) (i : info) :
  alert_name r = name →
  Forall (fun a => alert_name a ≠ name) post →
  i_risk (absorb_named name (pre ++ r :: post) i) = alert_risk r.
Proof.
  intros <- Hpost.
  rewrite absorb_named_app, absorb_named_cons_eq, absorb_named_none by done.
  apply absorb_risk.
Qed.

(** C3, amended. The risk of a normalized finding is the risk that the
    last raw record of its name resolves to: that record's first non-empty
    value among risk, riskdesc and severity, and "Informational" when it
    has none. *)
Theorem finding_risk_is_last_record_risk (alerts : list alert) (f : finding) :
  f ∈ simplify_alerts alerts →
  ∃ pre r post,
    alerts = pre ++ r :: post ∧
    alert_name r = f_name f ∧
    Forall (fun a => alert_name a ≠ f_name f) post ∧
    f_risk f = alert_risk r ∧
    alert_risk r =
      if truthy (raw_risk r) then raw_risk r else PStr "Informational".
Proof.
  intros [Hname Hf]%simplify_alerts_elem.
  destruct (last_record_named _ _ Hname) as (pre & r & post & -> & Hr & Hpost).
  exists pre, r, post. split_and!; try done.
  rewrite Hf. simpl. by apply absorb_named_last_risk.
Qed.

Lemma finding_risk_is_last_record_risk_witness :
  ∃ pre r post,
    [described_record; url_only_record] = pre ++ r :: post ∧
    alert_name r = PStr "XSS" ∧
    Forall (fun a => alert_name a ≠ PStr "XSS") post ∧
    PStr "Informational" = alert_risk r ∧
    alert_risk r =
      if truthy (raw_risk r) then raw_risk r else PStr "Informational".
Proof.
  apply (finding_risk_is_last_record_risk [described_record; url_only_record]
           {| f_name := PStr "XSS"; f_risk := PStr "Informational";
              f_urls := [PStr "http://a/x"]; f_params := [];
              f_description := PStr "http://a/x"; f_solution := PStr "";
              f_reference := PStr "" |}).
  vm_compute. left.
Defined.

(** C10. A record none of whose risk keys has a non-empty value gives its
    group the risk "Informational", whatever risk the group held before;
    when no later record of the name follows, that is the risk of the
    finding, whose score is then 1 and whose bucket is Low. *)
Theorem missing_risk_defaults_to_informational (pre post : list alert) (r : alert) :
  truthy (dict_get r "risk") = false →
  truthy (dict_get r "riskdesc") = false →
  truthy (dict_get r "severity") = false →
  (∃ i,
     grouped_lookup (alert_name r) (group_alerts (pre ++ [r])) = Some i ∧
     i_risk i = PStr "Informational") ∧
  (Forall (fun a => alert_name a ≠ alert_name r) post →
   ∃ f,
     f ∈ simplify_alerts (pre ++ r :: post) ∧
     f_name f = alert_name r ∧
     f_risk f = PStr "Informational" ∧
     v_score (enrich_suggestions (add_score f)) = 1 ∧
     (in_critical 1, in_high 1, in_medium 1, in_low 1) = (false, false, false, true)).
Proof.
  intros Hrisk Hriskdesc Hseverity.
  assert (alert_risk r = PStr "Informational") as Hr.
  { unfold alert_risk, por at 1 2 3. by rewrite Hrisk, Hriskdesc, Hseverity. }
  split.
  - destruct (group_alerts_after pre r) as [_ Hlookup].
    eexists. split; [done|]. by rewrite absorb_risk.
  - intros Hpost.
    exists (emit (alert_name r,
                  absorb_named (alert_name r) (pre ++ r :: post) default_info)).
    assert (i_risk (absorb_named (alert_name r) (pre ++ r :: post) default_info)
            = PStr "Informational") as Hi.
    { by rewrite absorb_named_last_risk with (r := r). }
    split_and!; try done.
    + apply simplify_alerts_has. rewrite fmap_app, fmap_cons.
      apply elem_of_app. right. by left.
    + unfold enrich_suggestions.
      destruct (first_suggestion CUSTOM_SUGGESTIONS _); simpl; by rewrite Hi.
Qed.

Lemma missing_risk_defaults_to_informational_witness :
  (∃ i,
     grouped_lookup (alert_name url_only_record)
       (group_alerts ([described_record] ++ [url_only_record])) = Some i ∧
     i_risk i = PStr "Informational") ∧
  (Forall (fun a => alert_name a ≠ alert_name url_only_record) [] →
   ∃ f,
     f ∈ simplify_alerts ([described_record] ++ url_only_record :: []) ∧
     f_name f = alert_name url_only_record ∧
     f_risk f = PStr "Informational" ∧
     v_score (enrich_suggestions (add_score f)) = 1 ∧
     (in_critical 1, in_high 1, in_medium 1, in_low 1) = (false, false, false, true)).
Proof.
  apply (missing_risk_defaults_to_informational [described_record] [] url_only_record);
    reflexivity.
Defined.

(** ** The handlers: how computations end *)

Section HandlerFacts.

Context {E : Type} (svc : services E).
Implicit Types (w : world E).

Lemma bind_Ok {A B} (m : M E A) (k : A -> M E B) w a w1 :
  m w = (Ok a, w1) → bind m k w = k a w1.
Proof. unfold bind. by intros ->. Qed.

Lemma call_eq {A} (f : E -> answer A * E) w :
  call f w =
    (match (f (ext w)).1 with Returns a => Ok a | Throws e => Raise e end,
     World (clock w) (f (ext w)).2 (last_scan w)).
Proof. unfold call. by destruct (f (ext w)). Qed.

Lemma call_returns {A} (f : E -> answer A * E) w a e' :
  f (ext w) = (Returns a, e') →
  call f w = (Ok a, World (clock w) e' (last_scan w)).
Proof. intros Hf. by rewrite call_eq, Hf. Qed.

(** *** [last_scan] is written in one place only *)

Lemma keeps_store_ret {A} (a : A) : keeps_store (ret (E:=E) a).
Proof. by intros w. Qed.

Lemma keeps_store_bind {A B} (m : M E A) (k : A -> M E B) :
  keeps_store m → (∀ a, keeps_store (k a)) → keeps_store (bind m k).
Proof.
  intros Hm Hk w. unfold bind. specialize (Hm w).
  destruct (m w) as [[a|e|] w1]; simpl in *; [|done|done].
  by rewrite Hk.
Qed.

Lemma keeps_store_try_except {A} (m : M E A) (handler : string -> M E A) :
  keeps_store m → (∀ e, keeps_store (handler e)) →
  keeps_store (try_except m handler).
Proof.
  intros Hm Hh w. unfold try_except. specialize (Hm w).
  destruct (m w) as [[a|e|] w1]; simpl in *; [done| |done].
  by rewrite Hh.
Qed.

Lemma keeps_store_call {A} (f : E -> answer A * E) : keeps_store (call f).
Proof. intros w. by rewrite call_eq. Qed.

Lemma keeps_store_time_time : keeps_store (time_time (E:=E)).
Proof. by intros w. Qed.

Lemma keeps_store_time_sleep seconds : keeps_store (time_sleep (E:=E) seconds).
Proof. by intros w. Qed.

Lemma keeps_store_out_of_fuel {A} : keeps_store (out_of_fuel (E:=E) (A:=A)).
Proof. by intros w. Qed.

Lemma keeps_store_now_text : keeps_store (now_text svc).
Proof. by intros w. Qed.

Create HintDb keeps discriminated.
#[local] Hint Resolve keeps_store_ret keeps_store_call keeps_store_time_time
  keeps_store_time_sleep keeps_store_out_of_fuel keeps_store_now_text : keeps.

(** Walks through a sequence of statements, one obligation per statement
    that is not a primitive. *)
Ltac keeps_store_steps :=
  repeat first
    [ apply keeps_store_bind; [|intros ?]
    | apply keeps_store_try_except; [|intros ?] ];
  auto with keeps.

Lemma keeps_store_spider_poll fuel spider_id start timeout :
  keeps_store (spider_poll svc fuel spider_id start timeout).
Proof.
  induction fuel as [|fuel IH]; simpl; [auto with keeps|].
  apply keeps_store_bind; [keeps_store_steps|intros st].
  apply keeps_store_bind; [keeps_store_steps|intros now].
  destruct ((100 <=? st) || (timeout <? now - start)); keeps_store_steps.
Qed.

Lemma keeps_store_ascan_poll fuel ascan_id start :
  keeps_store (ascan_poll svc fuel ascan_id start).
Proof.
  induction fuel as [|fuel IH]; simpl; [auto with keeps|].
  apply keeps_store_bind; [keeps_store_steps|intros st].
  destruct (st <? 100); [|keeps_store_steps].
  apply keeps_store_bind; [keeps_store_steps|intros now].
  destruct (90 <? now - start); keeps_store_steps.
Qed.

Lemma keeps_store_spider_and_get_alerts fuel target timeout :
  keeps_store (spider_and_get_alerts svc fuel target timeout).
Proof.
  unfold spider_and_get_alerts. keeps_store_steps.
  apply keeps_store_spider_poll.
Qed.

Lemma keeps_store_scan_collect fuel target level :
  keeps_store (scan_collect svc fuel target level).
Proof.
  unfold scan_collect.
  apply keeps_store_bind; [apply keeps_store_spider_and_get_alerts|].
  intros alerts. apply keeps_store_bind.
  - destruct (2 <=? level); keeps_store_steps. apply keeps_store_ascan_poll.
  - intros [alerts' ascan_id]. keeps_store_steps.
Qed.

Lemma keeps_store_ai_analyze findings target level :
  keeps_store (ai_analyze svc findings target level).
Proof. unfold ai_analyze. keeps_store_steps. Qed.

Lemma keeps_store_scan_report alerts ascan_id target level :
  keeps_store (scan_report svc alerts ascan_id target level).
Proof.
  unfold scan_report.
  apply keeps_store_bind; [apply keeps_store_ai_analyze|intros ai_summary].
  keeps_store_steps.
Qed.

(** The chat handler reads [last_scan] and never writes it. *)
Lemma keeps_store_chat data : keeps_store (chat svc data).
Proof.
  unfold chat. destruct (String.eqb _ _); [auto with keeps|].
  apply keeps_store_try_except; [|intros e; auto with keeps].
  apply keeps_store_bind; [by intros w|intros store].
  keeps_store_steps.
Qed.

(** *** The polling loops end *)

Lemma bind_Raise {A B} (m : M E A) (k : A -> M E B) w e w1 :
  m w = (Raise e, w1) → bind m k w = (Raise e, w1).
Proof. unfold bind. by intros ->. Qed.

Lemma call_throws {A} (f : E -> answer A * E) w e e' :
  f (ext w) = (Throws e, e') →
  call f w = (Raise e, World (clock w) e' (last_scan w)).
Proof. intros Hf. by rewrite call_eq, Hf. Qed.

(** The spider's loop returns once its status is 100 or its time is up,
    and a failing status read does not stop it. *)
Lemma spider_poll_S fuel spider_id start timeout w :
  spider_poll svc (S fuel) spider_id start timeout w =
    let r := zap_spider_status svc spider_id (ext w) in
    let st := match r.1 with Returns st => st | Throws _ => 0 end in
    if (100 <=? st) || (timeout <? clock w - start)
    then (Ok tt, World (clock w) r.2 (last_scan w))
    else spider_poll svc fuel spider_id start timeout
           (World (clock w + 1) r.2 (last_scan w)).
Proof.
  cbn [spider_poll]. unfold bind at 1, try_except. rewrite call_eq.
  destruct (zap_spider_status svc spider_id (ext w)) as [[st|e] e1];
    cbn [fst snd]; unfold bind at 1, time_time, ret; simpl;
    first [reflexivity | destruct (_ || _); reflexivity
          | destruct (_ <? _); reflexivity].
Qed.

Lemma spider_poll_returns fuel spider_id start timeout w :
  timeout + 2 - (clock w - start) ≤ Z.of_nat fuel →
  (1 ≤ fuel)%nat →
  ∃ w', spider_poll svc fuel spider_id start timeout w = (Ok tt, w').
Proof.
  revert w. induction fuel as [|fuel IH]; intros w Hfuel Hpos; [lia|].
  rewrite spider_poll_S. cbv zeta.
  destruct (_ || _) eqn:Hexit; [by eexists|].
  apply orb_false_iff in Hexit as [_ Hlate%Z.ltb_ge].
  apply IH; simpl; lia.
Qed.

Lemma ascan_poll_S fuel ascan_id start w :
  ascan_poll svc (S fuel) ascan_id start w =
    let r := zap_ascan_status svc ascan_id (ext w) in
    let w1 := World (clock w) r.2 (last_scan w) in
    match r.1 with
    | Throws e => (Raise e, w1)
    | Returns st =>
        if st <? 100 then
          if 90 <? clock w - start then (Ok tt, w1)
          else ascan_poll svc fuel ascan_id start
                 (World (clock w + 1) r.2 (last_scan w))
        else (Ok tt, w1)
    end.
Proof.
  cbn [ascan_poll]. unfold bind at 1. rewrite call_eq.
  destruct (zap_ascan_status svc ascan_id (ext w)) as [[st|e] e1];
    cbn [fst snd]; [|done].
  destruct (st <? 100); [|done].
  unfold bind at 1, time_time. simpl.
  destruct (90 <? clock w - start); reflexivity.
Qed.

(** The active scan's loop returns once its status is 100 or its time is
    up, unless a status read fails, which ends it with that exception. *)
Lemma ascan_poll_ends fuel ascan_id start w :
  92 - (clock w - start) ≤ Z.of_nat fuel →
  (1 ≤ fuel)%nat →
  (∃ w', ascan_poll svc fuel ascan_id start w = (Ok tt, w')) ∨
  (∃ e w', ascan_poll svc fuel ascan_id start w = (Raise e, w') ∧
           throws (zap_ascan_status svc) e).
Proof.
  revert w. induction fuel as [|fuel IH]; intros w Hfuel Hpos; [lia|].
  rewrite ascan_poll_S. cbv zeta.
  destruct (zap_ascan_status svc ascan_id (ext w)) as [[st|e] e1] eqn:Hst;
    cbn [fst snd].
  - destruct (st <? 100); [|left; by eexists].
    destruct (90 <? clock w - start) eqn:Hlate; [left; by eexists|].
    apply Z.ltb_ge in Hlate. apply IH; simpl; lia.
  - right. eexists _, _. split; [done|]. by eexists _, _, _.
Qed.

(** *** Collecting the raw alerts *)

Lemma spider_and_get_alerts_ends fuel target w :
  (enough_fuel ≤ fuel)%nat →
  (∃ alerts w' e0 e1,
     spider_and_get_alerts svc fuel target 60 w = (Ok alerts, w') ∧
     zap_core_alerts svc (with_scheme target) e0 = (Returns alerts, e1)) ∨
  (∃ e w',
     spider_and_get_alerts svc fuel target 60 w = (Raise e, w') ∧
     engine_threw svc e).
Proof.
  intros Hfuel. unfold enough_fuel in Hfuel. unfold spider_and_get_alerts.
  destruct (zap_urlopen svc (with_scheme target) (ext w)) as [[[]|e] e1] eqn:Hopen.
  2: { right. eexists _, _. split.
       - apply bind_Raise. by apply call_throws.
       - left. by eexists _, _, _. }
  erewrite bind_Ok by (by apply call_returns).
  erewrite bind_Ok by reflexivity. cbn [ext clock last_scan].
  destruct (zap_spider_scan svc (with_scheme target) e1) as [[spider_id|e] e2]
    eqn:Hscan.
  2: { right. eexists _, _. split.
       - apply bind_Raise. by apply call_throws.
       - right. left. by eexists _, _, _. }
  erewrite bind_Ok by (by apply call_returns).
  erewrite bind_Ok by reflexivity. cbn [ext clock last_scan].
  edestruct (spider_poll_returns fuel spider_id (clock w + 1) 60) as [w2 Hpoll];
    [| |erewrite bind_Ok by exact Hpoll]; [simpl; lia|lia|].
  erewrite bind_Ok by reflexivity.
  destruct (zap_core_alerts svc (with_scheme target) (ext w2)) as [[alerts|e] e3]
    eqn:Halerts.
  - left. eexists _, _, _, _. split; [by apply call_returns|done].
  - right. eexists _, _. split; [by apply call_throws|].
    right. right. left. by eexists _, _, _.
Qed.

(** Lines 173 to 180: the active scan and the alerts fetched after it. *)
Lemma active_scan_ends fuel target w :
  (enough_fuel ≤ fuel)%nat →
  (∃ alerts ascan_id w' e0 e1,
     (let! ascan_id := call (zap_ascan_scan svc target) in
      let! start := time_time in
      run! ascan_poll svc fuel ascan_id start in
      let! alerts := call (zap_core_alerts svc target) in
      ret (alerts, Some ascan_id)) w = (Ok (alerts, Some ascan_id), w') ∧
     zap_core_alerts svc target e0 = (Returns alerts, e1)) ∨
  (∃ e w',
     (let! ascan_id := call (zap_ascan_scan svc target) in
      let! start := time_time in
      run! ascan_poll svc fuel ascan_id start in
      let! alerts := call (zap_core_alerts svc target) in
      ret (alerts, Some ascan_id)) w = (Raise e, w') ∧
     engine_threw svc e).
Proof.
  intros Hfuel. unfold enough_fuel in Hfuel.
  destruct (zap_ascan_scan svc target (ext w)) as [[ascan_id|e] e2] eqn:Hstart.
  2: { right. eexists _, _. split.
       - apply bind_Raise. by apply call_throws.
       - do 3 right. left. by eexists _, _, _. }
  erewrite bind_Ok by (by apply call_returns).
  erewrite bind_Ok by reflexivity. cbn [clock].
  edestruct (ascan_poll_ends fuel ascan_id (clock w)) as
    [[w2 Hpoll]|(e & w2 & Hpoll & He)];
    [| |erewrite bind_Ok by exact Hpoll|erewrite bind_Raise by exact Hpoll];
    [simpl; lia|lia| |].
  - destruct (zap_core_alerts svc target (ext w2)) as [[alerts|e] e3] eqn:Hcore.
    + left. eexists _, _, _, _, _. split; [|done].
      by erewrite bind_Ok by (by apply call_returns).
    + right. eexists _, _. split.
      * apply bind_Raise. by apply call_throws.
      * do 2 right. left. by eexists _, _, _.
  - right. exists e, w2. split; [done|]. by do 4 right.
Qed.

(** What [scan] hands to the normalizer, by level: below 2 the alerts the
    spider fetched and no job identifier; from 2 on the alerts fetched
    anew after the active scan and its identifier; at 3, and only at 3, the
    synthetic record after them. The only other way to end is an exception
    that the engine raised. *)
Lemma scan_collect_ends fuel target level w :
  (enough_fuel ≤ fuel)%nat →
  (∃ alerts ascan_id w' e0 e1,
     scan_collect svc fuel target level w =
       (Ok (if level =? 3 then alerts ++ [synthetic_alert target] else alerts,
            ascan_id), w') ∧
     zap_core_alerts svc (if 2 <=? level then target else with_scheme target) e0 =
       (Returns alerts, e1) ∧
     (if 2 <=? level then is_Some ascan_id else ascan_id = None)) ∨
  (∃ e w',
     scan_collect svc fuel target level w = (Raise e, w') ∧ engine_threw svc e).
Proof.
  intros Hfuel. unfold scan_collect.
  destruct (spider_and_get_alerts_ends fuel target w Hfuel)
    as [(alerts & w1 & e0 & e1 & Hspider & Hcore)|(e & w1 & Hspider & He)].
  2: { right. exists e, w1. split; [by apply bind_Raise|done]. }
  erewrite bind_Ok by exact Hspider.
  destruct (2 <=? level) eqn:Hlevel.
  2: { left. by exists alerts, None, w1, e0, e1. }
  destruct (active_scan_ends fuel target w1 Hfuel)
    as [(alerts' & ascan_id & w2 & e2 & e3 & Hactive & Hcore')
       |(e & w2 & Hactive & He)].
  - left. exists alerts', (Some ascan_id), w2, e2, e3.
    split_and!; [|done|done]. by erewrite bind_Ok by exact Hactive.
  - right. exists e, w2. split; [|done]. by apply bind_Raise.
Qed.

(** *** Narration and the report *)

Lemma ai_analyze_eq findings target level w :
  ai_analyze svc findings target level w =
    (Ok match (generate_content svc (analyze_prompt findings target level) (ext w)).1 with
        | Returns text => text
        | Throws e => "[AI summary unavailable: " +:+ e +:+ "]"
        end,
     World (clock w)
       (generate_content svc (analyze_prompt findings target level) (ext w)).2
       (last_scan w)).
Proof.
  unfold ai_analyze, try_except. rewrite call_eq.
  by destruct (generate_content svc _ (ext w)) as [[text|e] e1].
Qed.

(** Once the raw alerts are there, the report is built whatever the
    generative model does. *)
Lemma scan_report_returns alerts ascan_id target level w :
  ∃ rep w',
    scan_report svc alerts ascan_id target level w = (Ok rep, w') ∧
    r_target rep = target ∧
    r_level rep = level ∧
    r_vulnerabilities rep = score_findings (simplify_alerts alerts) ∧
    r_summary rep = summarize (bucket_findings (r_vulnerabilities rep)) ∧
    r_ascan_id rep = ascan_id ∧
    r_ai_summary rep =
      match (generate_content svc
               (analyze_prompt (score_findings (simplify_alerts alerts)) target level)
               (ext w)).1 with
      | Returns text => text
      | Throws e => "[AI summary unavailable: " +:+ e +:+ "]"
      end.
Proof.
  unfold scan_report.
  erewrite bind_Ok by apply ai_analyze_eq.
  erewrite bind_Ok by reflexivity.
  eexists _, _. split; [reflexivity|]. by split_and!.
Qed.

(** The three ways the body of the [try] can end. *)
Lemma scan_steps_ends fuel target level w :
  (enough_fuel ≤ fuel)%nat →
  (∃ alerts ascan_id w1 rep w2,
     scan_collect svc fuel target level w = (Ok (alerts, ascan_id), w1) ∧
     scan_report svc alerts ascan_id target level w1 = (Ok rep, w2) ∧
     scan_steps svc fuel target level w =
       (Ok (Response 200 (JReport rep)), World (clock w2) (ext w2) (Some rep))) ∨
  (∃ e w',
     scan_steps svc fuel target level w = (Raise e, w') ∧
     last_scan w' = last_scan w ∧ engine_threw svc e).
Proof.
  intros Hfuel. unfold scan_steps.
  destruct (scan_collect_ends fuel target level w Hfuel)
    as [(alerts & ascan_id & w1 & e0 & e1 & Hcollect & _)
       |(e & w1 & Hcollect & He)].
  - left.
    destruct (scan_report_returns
                (if level =? 3 then alerts ++ [synthetic_alert target] else alerts)
                ascan_id target level w1) as (rep & w2 & Hreport & _).
    eexists _, _, _, _, _. split_and!; [done|done|].
    erewrite bind_Ok by exact Hcollect. cbv beta iota.
    erewrite bind_Ok by exact Hreport.
    by erewrite bind_Ok by reflexivity.
  - right. exists e, w1. split_and!; [by apply bind_Raise| |done].
    pose proof (keeps_store_scan_collect fuel target level w) as Hkeep.
    by rewrite Hcollect in Hkeep.
Qed.

(** *** The scan handler *)

Lemma try_except_Ok {A} (m : M E A) (handler : string -> M E A) w a w1 :
  m w = (Ok a, w1) → try_except m handler w = (Ok a, w1).
Proof. unfold try_except. by intros ->. Qed.

Lemma try_except_Raise {A} (m : M E A) (handler : string -> M E A) w e w1 :
  m w = (Raise e, w1) → try_except m handler w = handler e w1.
Proof. unfold try_except. by intros ->. Qed.

Lemma scan_invalid fuel data w :
  requested_target data = "" ∨ validators_url svc (requested_target data) = false →
  scan svc fuel data w =
    (Ok (Response 400
           (JError "Invalid or missing URL. Please include http:// or https://")),
     w).
Proof.
  intros Hbad. unfold scan.
  destruct Hbad as [-> | ->]; [done|]. by rewrite orb_true_r.
Qed.

Lemma scan_valid fuel data w :
  requested_target data ≠ "" →
  validators_url svc (requested_target data) = true →
  scan svc fuel data w =
    try_except
      (scan_steps svc fuel (requested_target data) (requested_level data))
      (fun e => ret (Response 500 (JError e))) w.
Proof.
  intros Hnonempty Hvalid. unfold scan.
  apply String.eqb_neq in Hnonempty. by rewrite Hnonempty, Hvalid.
Qed.

Lemma responsive_never_threw e : responsive svc → engine_threw svc e → False.
Proof.
  intros [H1 H2 H3 H4 H5] He.
  destruct He as [He|[He|[He|[He|He]]]]; destruct He as (a & e0 & e1 & He).
  - destruct (H1 a e0) as (? & ? & ?). congruence.
  - destruct (H2 a e0) as (? & ? & ?). congruence.
  - destruct (H3 a e0) as (? & ? & ?). congruence.
  - destruct (H4 a e0) as (? & ? & ?). congruence.
  - destruct (H5 a e0) as (? & ? & ?). congruence.
Qed.

(** C4. For a request with a valid URL: when the engine's calls return, the
    scan returns a report, whether the active scan completes or runs into
    its time bound; and in every report it returns, the findings are the
    normalized alerts that the engine last returned, followed by exactly
    one synthetic record when the level is 3 and by nothing at any other
    level; the job identifier is null below level 2 (level 1, 0 and the
    negative ones alike) and non-null from level 2 on. The synthetic
    record is named "Missing WAF/Firewall headers" and has risk Medium. *)
Theorem scan_level_behaviour fuel data w :
  (enough_fuel ≤ fuel)%nat →
  requested_target data ≠ "" →
  validators_url svc (requested_target data) = true →
  (responsive svc →
   ∃ rep w', scan svc fuel data w = (Ok (Response 200 (JReport rep)), w')) ∧
  (∀ rep w',
     scan svc fuel data w = (Ok (Response 200 (JReport rep)), w') →
     ∃ alerts e0 e1,
       zap_core_alerts svc
         (if 2 <=? requested_level data then requested_target data
          else with_scheme (requested_target data)) e0 = (Returns alerts, e1) ∧
       (requested_level data = 3 →
        r_vulnerabilities rep =
          score_findings
            (simplify_alerts (alerts ++ [synthetic_alert (requested_target data)]))) ∧
       (requested_level data ≠ 3 →
        r_vulnerabilities rep = score_findings (simplify_alerts alerts)) ∧
       (requested_level data < 2 → r_ascan_id rep = None) ∧
       (2 ≤ requested_level data → is_Some (r_ascan_id rep))) ∧
  alert_name (synthetic_alert (requested_target data)) =
    PStr "Missing WAF/Firewall headers" ∧
  alert_risk (synthetic_alert (requested_target data)) = PStr "Medium".
Proof.
  intros Hfuel Hnonempty Hvalid.
  pose proof (scan_valid fuel data w Hnonempty Hvalid) as Hscan.
  set (target := requested_target data) in *.
  set (level := requested_level data) in *.
  split_and!; [| |reflexivity|reflexivity].
  - intros Hresp.
    destruct (scan_steps_ends fuel target level w Hfuel)
      as [(alerts & ascan_id & w1 & rep & w2 & _ & _ & Hsteps)
         |(e & w1 & _ & _ & He)].
    + eexists _, _. rewrite Hscan. by apply try_except_Ok.
    + destruct (responsive_never_threw e Hresp He).
  - intros rep w' Hrep. rewrite Hscan in Hrep.
    destruct (scan_steps_ends fuel target level w Hfuel)
      as [(raw & ascan_id & w1 & rep' & w2 & Hcollect & Hreport & Hsteps)
         |(e & w1 & Hsteps & _ & _)].
    2: { by rewrite (try_except_Raise _ _ _ _ _ Hsteps) in Hrep. }
    rewrite (try_except_Ok _ _ _ _ _ Hsteps) in Hrep.
    injection Hrep as <- _.
    destruct (scan_report_returns raw ascan_id target level w1)
      as (rep'' & w2' & Hreport' & _ & _ & Hvulns & _ & Hid & _).
    rewrite Hreport in Hreport'. injection Hreport' as <- _.
    destruct (scan_collect_ends fuel target level w Hfuel)
      as [(alerts & ascan_id' & w1' & e0 & e1 & Hcollect' & Hcore & Hjob)
         |(e & w1' & Hcollect' & _)].
    2: { by rewrite Hcollect in Hcollect'. }
    rewrite Hcollect in Hcollect'. injection Hcollect' as -> <- _.
    exists alerts, e0, e1. rewrite Hvulns, Hid.
    split_and!; [done| | | |].
    + intros H3. by rewrite H3.
    + intros H3. apply Z.eqb_neq in H3. by rewrite H3.
    + intros Hlow. apply Z.leb_gt in Hlow. by rewrite Hlow in Hjob.
    + intros Hhigh. apply Z.leb_le in Hhigh. by rewrite Hhigh in Hjob.
Qed.

(** C8. A request whose URL is missing or invalid is answered with 400 and
    the world, the Report Store included, is left as it was. Any exception
    of the scan steps is answered with 500 and the exception's text, which
    is a text that the engine raised, and leaves the Report Store as it
    was. And every request is answered: with 200 and the report that the
    store now holds, or with 400 or 500 and an untouched store. *)
Theorem scan_writes_store_only_on_success fuel data w :
  (enough_fuel ≤ fuel)%nat →
  (requested_target data = "" ∨
   validators_url svc (requested_target data) = false →
   scan svc fuel data w =
     (Ok (Response 400
            (JError "Invalid or missing URL. Please include http:// or https://")),
      w)) ∧
  (requested_target data ≠ "" →
   validators_url svc (requested_target data) = true →
   ∀ e w1,
     scan_steps svc fuel (requested_target data) (requested_level data) w =
       (Raise e, w1) →
     scan svc fuel data w = (Ok (Response 500 (JError e)), w1) ∧
     last_scan w1 = last_scan w ∧
     engine_threw svc e) ∧
  ∃ resp w',
    scan svc fuel data w = (Ok resp, w') ∧
    ((∃ rep, resp = Response 200 (JReport rep) ∧ last_scan w' = Some rep) ∨
     (∃ msg, (resp = Response 400 (JError msg) ∨ resp = Response 500 (JError msg)) ∧
             last_scan w' = last_scan w)).
Proof.
  intros Hfuel. split_and!.
  - apply scan_invalid.
  - intros Hnonempty Hvalid e w1 Hsteps.
    rewrite scan_valid by done.
    rewrite (try_except_Raise _ _ _ _ _ Hsteps).
    destruct (scan_steps_ends fuel (requested_target data) (requested_level data)
                w Hfuel)
      as [(? & ? & ? & ? & ? & _ & _ & Hok)|(e' & w1' & Hraise & Hstore & He)].
    + by rewrite Hsteps in Hok.
    + rewrite Hsteps in Hraise. by injection Hraise as -> ->.
  - destruct (decide (requested_target data = "")) as [Hempty|Hnonempty].
    { eexists _, _. split; [apply scan_invalid; by left|].
      right. eexists. split; [by left|done]. }
    destruct (validators_url svc (requested_target data)) eqn:Hvalid.
    2: { eexists _, _. split; [apply scan_invalid; by right|].
         right. eexists. split; [by left|done]. }
    rewrite scan_valid by done.
    destruct (scan_steps_ends fuel (requested_target data) (requested_level data)
                w Hfuel)
      as [(? & ? & ? & rep & w2 & _ & _ & Hok)|(e & w1 & Hraise & Hstore & _)].
    + eexists _, _. split; [by apply try_except_Ok|].
      left. by exists rep.
    + eexists _, _. split; [by rewrite (try_except_Raise _ _ _ _ _ Hraise)|].
      right. exists e. split; [by right|done].
Qed.

(** *** The two AI entry points *)

Lemma chat_eq data w :
  requested_message data ≠ "" →
  chat svc data w =
    (Ok match (generate_content svc
                 (chat_prompt (requested_message data) (q_include_scan data)
                    (last_scan w)) (ext w)).1 with
        | Returns text => Response 200 (JReply text)
        | Throws e => Response 500 (JError ("AI Chat unavailable: " +:+ e))
        end,
     World (clock w)
       (generate_content svc
          (chat_prompt (requested_message data) (q_include_scan data)
             (last_scan w)) (ext w)).2
       (last_scan w)).
Proof.
  intros Hmessage%String.eqb_neq. unfold chat. rewrite Hmessage.
  unfold try_except, bind, read_last_scan. rewrite call_eq.
  by destruct (generate_content svc _ (ext w)) as [[text|e] e1].
Qed.

(** C9, amended. No exception escapes either AI entry point. When the
    generation fails, [ai_analyze] returns the text
    "[AI summary unavailable: reason]", so that a scan whose alerts were
    collected still returns its report, with that text as its summary. The
    chat handler answers a failed generation with status 500 and the error
    "AI Chat unavailable: reason", not with a reply. *)
Theorem narration_failures_are_contained :
  (∀ findings target level w,
     ∃ text w',
       ai_analyze svc findings target level w = (Ok text, w') ∧
       last_scan w' = last_scan w ∧
       ∀ e e1,
         generate_content svc (analyze_prompt findings target level) (ext w) =
           (Throws e, e1) →
         text = "[AI summary unavailable: " +:+ e +:+ "]") ∧
  (∀ fuel target level w alerts ascan_id w1,
     scan_collect svc fuel target level w = (Ok (alerts, ascan_id), w1) →
     ∃ rep w2,
       scan_steps svc fuel target level w = (Ok (Response 200 (JReport rep)), w2) ∧
       ∀ e e1,
         generate_content svc
           (analyze_prompt (score_findings (simplify_alerts alerts)) target level)
           (ext w1) = (Throws e, e1) →
         r_ai_summary rep = "[AI summary unavailable: " +:+ e +:+ "]") ∧
  (∀ data w,
     ∃ resp w',
       chat svc data w = (Ok resp, w') ∧
       last_scan w' = last_scan w ∧
       (requested_message data ≠ "" →
        ∀ e e1,
          generate_content svc
            (chat_prompt (requested_message data) (q_include_scan data)
               (last_scan w)) (ext w) = (Throws e, e1) →
          resp = Response 500 (JError ("AI Chat unavailable: " +:+ e)))).
Proof.
  split_and!.
  - intros findings target level w. eexists _, _.
    split; [apply ai_analyze_eq|]. split; [done|].
    intros e e1 Hgen. by rewrite Hgen.
  - intros fuel target level w alerts ascan_id w1 Hcollect.
    destruct (scan_report_returns alerts ascan_id target level w1)
      as (rep & w2 & Hreport & _ & _ & _ & _ & _ & Hsummary).
    exists rep, (World (clock w2) (ext w2) (Some rep)). split.
    + unfold scan_steps. erewrite bind_Ok by exact Hcollect. cbv beta iota.
      erewrite bind_Ok by exact Hreport.
      by erewrite bind_Ok by reflexivity.
    + intros e e1 Hgen. by rewrite Hsummary, Hgen.
  - intros data w.
    destruct (decide (requested_message data = "")) as [Hempty|Hmessage].
    + exists (Response 400 (JError "Message cannot be empty")), w.
      split_and!; [|done|done]. unfold chat. by rewrite Hempty.
    + eexists _, _. split; [by apply chat_eq|]. split; [done|].
      intros _ e e1 Hgen. by rewrite Hgen.
Qed.

End HandlerFacts.

(** ** The handlers on the simulated engines *)

Lemma sim_responsive alerts ascan_id st generated :
  responsive (Sim.services_of alerts (Returns ascan_id) (Returns st) generated).
Proof. split; intros a e; by eexists _, _. Qed.

(** At level 3 the active scan that never completes runs into its time
    bound, the synthetic record follows the engine's alerts, and the failed
    narration is in the summary. *)
Example scan_level3_stalled :
  ∃ rep w',
    scan stalled_engine 100 (Sim.request "http://a" 3) Sim.boot =
      (Ok (Response 200 (JReport rep)), w') ∧
    f_name ∘ v_finding <$> r_vulnerabilities rep =
      [PStr "XSS"; PStr "SQLi"; PStr "Missing WAF/Firewall headers"] ∧
    r_summary rep = [("Critical", 2); ("High", 1); ("Medium", 0); ("Low", 0)] ∧
    r_ascan_id rep = Some "1" ∧
    r_ai_summary rep = "[AI summary unavailable: quota exceeded]" ∧
    clock w' = 93 ∧
    last_scan w' = Some rep.
Proof. eexists _, _. split; [by vm_compute|]. by vm_compute. Qed.

(** A status read that fails aborts the scan at levels 2 and 3; level 1
    does not poll the active scan. *)
Example scan_broken_engine :
  (scan broken_engine 100 (Sim.request "http://a" 3) Sim.boot).1 =
    Ok (Response 500 (JError "ZAP is not reachable")) ∧
  last_scan (scan broken_engine 100 (Sim.request "http://a" 3) Sim.boot).2 = None ∧
  (scan broken_engine 100 (Sim.request "http://a" 2) Sim.boot).1 =
    Ok (Response 500 (JError "ZAP is not reachable")) ∧
  (∃ rep, (scan broken_engine 100 (Sim.request "http://a" 1) Sim.boot).1 =
            Ok (Response 200 (JReport rep))) ∧
  (scan broken_engine 100 (Sim.request "not a url" 1) Sim.boot) =
    (Ok (Response 400
           (JError "Invalid or missing URL. Please include http:// or https://")),
     Sim.boot).
Proof. split_and!; try (by vm_compute). eexists. by vm_compute. Qed.

Lemma scan_level_behaviour_witness :
  ∃ rep w',
    scan stalled_engine 100 (Sim.request "http://a" 3) Sim.boot =
      (Ok (Response 200 (JReport rep)), w').
Proof.
  refine (proj1 (scan_level_behaviour stalled_engine 100
                   (Sim.request "http://a" 3) Sim.boot _ _ _) _).
  - unfold enough_fuel. lia.
  - by vm_compute.
  - reflexivity.
  - apply sim_responsive.
Defined.

Lemma scan_writes_store_only_on_success_witness :
  ∃ resp w',
    scan broken_engine 100 (Sim.request "http://a" 2) Sim.boot = (Ok resp, w') ∧
    ((∃ rep, resp = Response 200 (JReport rep) ∧ last_scan w' = Some rep) ∨
     (∃ msg, (resp = Response 400 (JError msg) ∨ resp = Response 500 (JError msg)) ∧
             last_scan w' = last_scan Sim.boot)).
Proof.
  refine (proj2 (proj2 (scan_writes_store_only_on_success broken_engine 100
                          (Sim.request "http://a" 2) Sim.boot _))).
  unfold enough_fuel. lia.
Defined.

(** C9, as the specification states it, fails on the chat path: a failed
    generation is answered with status 500 and an error, not with a reply
    that embeds the reason in a bracketed marker. *)
Lemma chat_failure_is_a_server_error :
  (chat stalled_engine (ChatRequest (Some "How do I fix XSS?") false) Sim.boot).1 =
    Ok (Response 500 (JError "AI Chat unavailable: quota exceeded")) ∧
  (generate_content stalled_engine
     (chat_prompt "How do I fix XSS?" false None) O).1 = Throws "quota exceeded" ∧
  ¬ ∃ reply,
      (chat stalled_engine (ChatRequest (Some "How do I fix XSS?") false) Sim.boot).1 =
        Ok (Response 200 (JReply reply)).
Proof.
  split_and!; [by vm_compute|by vm_compute|].
  intros [reply Hreply]. vm_compute in Hreply. discriminate.
Qed.

Lemma narration_failures_are_contained_witness :
  ∃ resp w',
    chat stalled_engine (ChatRequest (Some "How do I fix XSS?") false) Sim.boot =
      (Ok resp, w') ∧
    last_scan w' = last_scan Sim.boot ∧
    (requested_message (ChatRequest (Some "How do I fix XSS?") false) ≠ "" →
     ∀ e e1,
       generate_content stalled_engine
         (chat_prompt (requested_message (ChatRequest (Some "How do I fix XSS?") false))
            false (last_scan Sim.boot)) (ext Sim.boot) = (Throws e, e1) →
       resp = Response 500 (JError ("AI Chat unavailable: " +:+ e))).
Proof.
  exact (proj2 (proj2 (narration_failures_are_contained stalled_engine))
           (ChatRequest (Some "How do I fix XSS?") false) Sim.boot).
Defined.

(** * Further properties of the normalizer *)

Lemma elem_of_fromkeys_1 {A} `{EqDecision A} (x : A) (l : list A) :
  x ∈ fromkeys l → x ∈ l.
Proof. apply elem_of_fromkeys. Qed.

Lemma grouped_by_keys (F : pyval → info) (g : grouped) :
  (∀ name i, (name, i) ∈ g → i = F name) →
  g = (fun name => (name, F name)) <$> g.*1.
Proof.
  induction g as [|[k i] g IH]; intros HF; [done|].
  rewrite !fmap_cons. cbn [fst]. f_equal.
  - f_equal. apply HF. by left.
  - apply IH. intros name j Hin. apply HF. by right.
Qed.

(** The output in closed form: one finding per name, in first-seen order,
    built from the records of that name alone. *)
Lemma simplify_alerts_closed (alerts : list alert) :
  simplify_alerts alerts =
    (fun name => emit (name, absorb_named name alerts default_info))
      <$> fromkeys (alert_name <$> alerts).
Proof.
  unfold simplify_alerts.
  rewrite (grouped_by_keys (fun name => absorb_named name alerts default_info)
             (group_alerts alerts)) at 1.
  - by rewrite group_alerts_keys, <- list_fmap_compose.
  - intros name i Hin. by apply group_alerts_entry in Hin as [_ ->].
Qed.

Lemma absorb_solution (a : alert) (i : info) :
  i_solution (absorb a i) =
    if truthy (alert_solution a) then alert_solution a else i_solution i.
Proof. absorb_cases a; reflexivity. Qed.

Lemma absorb_reference (a : alert) (i : info) :
  i_reference (absorb a i) =
    if truthy (alert_reference a) then alert_reference a else i_reference i.
Proof. absorb_cases a; reflexivity. Qed.

(** A field that each record overwrites when its own value counts as true
    ends up with the last such value. *)
Lemma foldl_absorb_last (field : info → pyval) (value : alert → pyval)
    (records : list alert) (i : info) :
  (∀ a j, field (absorb a j) = if truthy (value a) then value a else field j) →
  field (foldl (fun i a => absorb a i) i records) =
    default (field i) (last (filter (fun v => truthy v = true) (value <$> records))).
Proof.
  intros Hfield. revert i.
  induction records as [|a records IH]; intros i; [done|].
  cbn [foldl]. rewrite IH, Hfield, fmap_cons, filter_cons.
  destruct (truthy (value a)) eqn:Ha; case_decide; try done.
  rewrite last_cons. by destruct (last _).
Qed.

(** X1. The description, the solution and the reference of a finding are the
    last non-empty values that the records of its name resolve to, the
    empty string when no record has one; for the description the
    candidates are description, desc, evidence and url, in this order. *)
Theorem finding_text_fields_are_last_nonempty (alerts : list alert) :
  Forall (fun f =>
            f_description f =
              last_truthy (alert_desc <$> records_named (f_name f) alerts) ∧
            f_solution f =
              last_truthy (alert_solution <$> records_named (f_name f) alerts) ∧
            f_reference f =
              last_truthy (alert_reference <$> records_named (f_name f) alerts))
         (simplify_alerts alerts).
Proof.
  apply Forall_forall. intros f [_ Hf]%simplify_alerts_elem.
  rewrite Hf. cbn [emit f_description f_solution f_reference f_name fst snd].
  unfold absorb_named, last_truthy. split_and!.
  - apply (foldl_absorb_last i_description alert_desc), absorb_description.
  - apply (foldl_absorb_last i_solution alert_solution), absorb_solution.
  - apply (foldl_absorb_last i_reference alert_reference), absorb_reference.
Qed.

Lemma por_truthy_r (x y : pyval) : truthy y = true → truthy (x ||| y) = true.
Proof. intros Hy. unfold por. by destruct (truthy x) eqn:Hx. Qed.

Lemma alert_name_truthy (a : alert) : truthy (alert_name a) = true.
Proof. by apply por_truthy_r. Qed.

Lemma alert_risk_truthy (a : alert) : truthy (alert_risk a) = true.
Proof. by apply por_truthy_r. Qed.

Lemma fromkeys_Forall {A} `{EqDecision A} (P : A → Prop) (l : list A) :
  Forall P l → Forall P (fromkeys l).
Proof.
  rewrite !Forall_forall. intros Hl x Hx. by apply Hl, elem_of_fromkeys.
Qed.

(** X2. No finding has an empty or null name or risk, and no empty or null
    value is among its urls or params: the [None] that a new accumulator
    holds as its risk never reaches the output. *)
Theorem findings_have_no_empty_values (alerts : list alert) :
  Forall (fun f =>
            truthy (f_name f) = true ∧
            truthy (f_risk f) = true ∧
            Forall (fun v => truthy v = true) (f_urls f) ∧
            Forall (fun v => truthy v = true) (f_params f))
         (simplify_alerts alerts).
Proof.
  apply Forall_forall. intros f [Hname Hf]%simplify_alerts_elem.
  destruct (last_record_named _ _ Hname) as (pre & r & post & -> & Hr & Hpost).
  split_and!.
  - rewrite <- Hr. apply alert_name_truthy.
  - rewrite Hf. cbn [emit f_risk snd].
    rewrite absorb_named_last_risk with (r := r) by done.
    apply alert_risk_truthy.
  - rewrite Hf. cbn [emit f_urls snd]. unfold absorb_named.
    rewrite foldl_absorb_urls. apply fromkeys_Forall. cbn [i_urls default_info app].
    apply Forall_forall. by intros v [Hv _]%list_elem_of_filter.
  - rewrite Hf. cbn [emit f_params snd]. unfold absorb_named.
    rewrite foldl_absorb_params. apply fromkeys_Forall.
    cbn [i_params default_info app].
    apply Forall_forall. by intros v [Hv _]%list_elem_of_filter.
Qed.

Lemma records_named_idemp name (alerts : list alert) :
  records_named name (records_named name alerts) = records_named name alerts.
Proof.
  unfold records_named. rewrite list_filter_filter. apply list_filter_iff.
  tauto.
Qed.

Lemma absorb_named_records name (alerts : list alert) (i : info) :
  absorb_named name (records_named name alerts) i = absorb_named name alerts i.
Proof. unfold absorb_named. by rewrite records_named_idemp. Qed.

Lemma filter_all {A} (P : A → Prop) `{∀ x, Decision (P x)} (l : list A) :
  Forall P l → filter P l = l.
Proof.
  induction 1 as [|x l Hx _ IH]; [done|].
  by rewrite filter_cons_True, IH.
Qed.

Lemma filter_eq_NoDup {A} `{EqDecision A} (x : A) (l : list A) :
  NoDup l → filter (fun y => y = x) l = if decide (x ∈ l) then [x] else [].
Proof.
  induction 1 as [|y l Hy Hnd IH]; [done|].
  rewrite filter_cons, IH.
  destruct (decide (y = x)) as [->|Hne].
  - rewrite decide_False by done. rewrite decide_True; [done|by left].
  - destruct (decide (x ∈ l)) as [Hin|Hin].
    + rewrite decide_True; [done|by right].
    + rewrite decide_False; [done|]. intros [?|?]%elem_of_cons; congruence.
Qed.

Lemma fromkeys_all_equal (name : pyval) (names : list pyval) :
  Forall (fun n => n = name) names →
  fromkeys names = if decide (name ∈ names) then [name] else [].
Proof.
  intros Hall.
  assert (fromkeys names = filter (fun y => y = name) (fromkeys names)) as ->.
  { symmetry. apply filter_all, Forall_forall.
    intros x Hx%elem_of_fromkeys_1.
    exact (proj1 (Forall_forall _ _) Hall x Hx). }
  rewrite filter_eq_NoDup by apply fromkeys_NoDup.
  destruct (decide (name ∈ names)) as [Hin|Hin].
  - rewrite decide_True; [done|by apply elem_of_fromkeys].
  - rewrite decide_False; [done|by rewrite elem_of_fromkeys].
Qed.

Lemma records_named_names name (alerts : list alert) :
  Forall (fun n => n = name) (alert_name <$> records_named name alerts) ∧
  (name ∈ alert_name <$> records_named name alerts ↔ name ∈ alert_name <$> alerts).
Proof.
  split.
  - apply Forall_fmap, Forall_forall. by intros a [Ha _]%list_elem_of_filter.
  - rewrite !list_elem_of_fmap. split.
    + intros (a & Ha & [_ Hin]%list_elem_of_filter). by exists a.
    + intros (a & Ha & Hin). exists a. split; [done|].
      by apply list_elem_of_filter.
Qed.

(** X3. Grouping is local to a name: normalizing only the records of one
    name gives exactly the finding that the whole input has for that name,
    and nothing when the name does not occur. *)
Theorem simplify_alerts_of_one_name name (alerts : list alert) :
  simplify_alerts (records_named name alerts) =
    filter (fun f => f_name f = name) (simplify_alerts alerts).
Proof.
  rewrite !simplify_alerts_closed.
  destruct (records_named_names name alerts) as [Hall Hiff].
  rewrite (fromkeys_all_equal name) by done.
  assert (filter (fun f => f_name f = name)
            ((fun n => emit (n, absorb_named n alerts default_info))
               <$> fromkeys (alert_name <$> alerts)) =
          (fun n => emit (n, absorb_named n alerts default_info))
            <$> filter (fun n => n = name) (fromkeys (alert_name <$> alerts)))
    as ->.
  { induction (fromkeys (alert_name <$> alerts)) as [|n ns IH]; [done|].
    rewrite fmap_cons, !filter_cons. cbn [emit f_name fst].
    case_decide; by rewrite IH. }
  rewrite filter_eq_NoDup by apply fromkeys_NoDup.
  destruct (decide (name ∈ alert_name <$> records_named name alerts)) as [Hin|Hin].
  - rewrite decide_True by (by apply elem_of_fromkeys, Hiff).
    cbn [fmap list_fmap]. by rewrite absorb_named_records.
  - rewrite decide_False; [done|]. rewrite elem_of_fromkeys. by rewrite <- Hiff.
Qed.

Lemma fromkeys_app_disjoint {A} `{EqDecision A} (l1 l2 : list A) :
  (∀ x, x ∈ l1 → x ∉ l2) →
  fromkeys (l1 ++ l2) = fromkeys l1 ++ fromkeys l2.
Proof.
  intros Hdisjoint. unfold fromkeys at 1. rewrite foldl_app.
  fold (fromkeys l1). rewrite foldl_fromkeys_insert_first_seen.
  rewrite <- fromkeys_first_seen. f_equal.
  apply filter_all, Forall_forall.
  intros x Hx%elem_of_fromkeys_1 Hx1%elem_of_fromkeys_1. by apply (Hdisjoint x).
Qed.

(** X4. Inputs that share no name normalize independently: the findings of
    their concatenation are the findings of the first followed by the
    findings of the second. *)
Theorem simplify_alerts_app_disjoint (alerts1 alerts2 : list alert) :
  (∀ a b, a ∈ alerts1 → b ∈ alerts2 → alert_name a ≠ alert_name b) →
  simplify_alerts (alerts1 ++ alerts2) =
    simplify_alerts alerts1 ++ simplify_alerts alerts2.
Proof.
  intros Hdisjoint. rewrite !simplify_alerts_closed, fmap_app.
  rewrite fromkeys_app_disjoint, fmap_app.
  2: { intros n (a & -> & Ha)%list_elem_of_fmap (b & Hb & Hin)%list_elem_of_fmap.
       by apply (Hdisjoint a b). }
  f_equal; apply Forall_fmap_ext, Forall_forall;
    intros n (c & -> & Hc)%elem_of_fromkeys_1%list_elem_of_fmap;
    f_equal; f_equal; rewrite absorb_named_app.
  - apply absorb_named_none, Forall_forall. intros b Hb Heq.
    by apply (Hdisjoint c b).
  - f_equal. apply absorb_named_none, Forall_forall. intros a Ha Heq.
    by apply (Hdisjoint a c).
Qed.

Lemma simplify_alerts_app_disjoint_witness :
  simplify_alerts ([described_record; url_only_record] ++ [csp_record; anonymous_record]) =
    simplify_alerts [described_record; url_only_record] ++
    simplify_alerts [csp_record; anonymous_record].
Proof.
  apply (simplify_alerts_app_disjoint [described_record; url_only_record]
           [csp_record; anonymous_record]).
  intros a b Ha Hb.
  repeat (apply elem_of_cons in Ha as [->|Ha]);
    [| |by apply elem_of_nil in Ha];
    repeat (apply elem_of_cons in Hb as [->|Hb]);
    try (by apply elem_of_nil in Hb); by vm_compute.
Defined.

(** X5. There are never more findings than raw records, and there is no
    finding exactly when there is no record. *)
Theorem simplify_alerts_length (alerts : list alert) :
  (length (simplify_alerts alerts) ≤ length alerts)%nat ∧
  (simplify_alerts alerts = [] ↔ alerts = []).
Proof.
  rewrite simplify_alerts_closed. split.
  - rewrite length_fmap, <- (length_fmap alert_name alerts).
    apply submseteq_length, NoDup_submseteq; [apply fromkeys_NoDup|].
    intros x. apply elem_of_fromkeys.
  - split; [|by intros ->].
    destruct alerts as [|a alerts]; [done|]. intros Hnil.
    apply fmap_nil_inv in Hnil.
    assert (alert_name a ∈ fromkeys (alert_name <$> a :: alerts)) as Hin
      by (apply elem_of_fromkeys; by left).
    rewrite Hnil in Hin. by apply elem_of_nil in Hin.
Qed.

(** X6. One more record changes the finding of its own name only: the
    findings of the other names stay as they were, in the same order, and
    a record with a new name adds its finding at the end. *)
Theorem simplify_alerts_one_more_record (alerts : list alert) (a : alert) :
  filter (fun f => f_name f ≠ alert_name a) (simplify_alerts (alerts ++ [a])) =
    filter (fun f => f_name f ≠ alert_name a) (simplify_alerts alerts) ∧
  f_name <$> simplify_alerts (alerts ++ [a]) =
    if decide (alert_name a ∈ alert_name <$> alerts)
    then f_name <$> simplify_alerts alerts
    else (f_name <$> simplify_alerts alerts) ++ [alert_name a].
Proof.
  split.
  - rewrite !simplify_alerts_closed, fmap_app.
    change (alert_name <$> [a]) with [alert_name a]. rewrite fromkeys_snoc.
    assert (∀ names : list pyval,
      filter (fun f => f_name f ≠ alert_name a)
        ((fun n => emit (n, absorb_named n (alerts ++ [a]) default_info)) <$> names) =
      filter (fun f => f_name f ≠ alert_name a)
        ((fun n => emit (n, absorb_named n alerts default_info)) <$> names))
      as Hsame.
    { induction names as [|n names IH]; [done|].
      rewrite !fmap_cons, !filter_cons. cbn [emit f_name fst].
      case_decide as Hn; rewrite IH; [|done].
      f_equal. f_equal. f_equal. rewrite absorb_named_app.
      apply absorb_named_none. constructor; [congruence|constructor]. }
    unfold fromkeys_insert. case_bool_decide; [apply Hsame|].
    rewrite fmap_app, filter_app, Hsame. cbn [fmap list_fmap].
    rewrite filter_cons. cbn [emit f_name fst].
    rewrite decide_False by (intros Hne; by apply Hne).
    by rewrite filter_nil, app_nil_r.
  - rewrite !simplify_alerts_names, fmap_app.
    change (alert_name <$> [a]) with [alert_name a]. rewrite fromkeys_snoc.
    unfold fromkeys_insert.
    case_bool_decide as Hin; rewrite elem_of_fromkeys in Hin.
    + by rewrite decide_True.
    + by rewrite decide_False.
Qed.

(** * Further properties of scoring and advice *)

(** X7. Which risk label is counted in which bucket: "Critical" and "High"
    in Critical, "Medium" in High, "Low" in Medium, and every other value,
    "Informational" included, in Low. *)
Theorem bucket_of_each_label (risk : pyval) :
  (in_critical (risk_to_score risk) = true ↔
     risk = PStr "Critical" ∨ risk = PStr "High") ∧
  (in_high (risk_to_score risk) = true ↔ risk = PStr "Medium") ∧
  (in_medium (risk_to_score risk) = true ↔ risk = PStr "Low") ∧
  (in_low (risk_to_score risk) = true ↔
     risk ≠ PStr "Critical" ∧ risk ≠ PStr "High" ∧
     risk ≠ PStr "Medium" ∧ risk ≠ PStr "Low").
Proof.
  unfold risk_to_score, mapping. cbn [items_get].
  repeat case_decide; subst; vm_compute; intuition congruence.
Qed.

Lemma enrich_suggestions_keeps (a : vuln) :
  v_finding (enrich_suggestions a) = v_finding a ∧
  v_score (enrich_suggestions a) = v_score a.
Proof. unfold enrich_suggestions. by destruct (first_suggestion _ _). Qed.

Lemma risk_to_score_values (risk : pyval) :
  risk_to_score risk ∈ [0; 1; 3; 6; 9; 10].
Proof.
  unfold risk_to_score, mapping. cbn [items_get].
  repeat case_decide; set_solver.
Qed.

(** X8. Scoring keeps the findings as they are and in their order, gives
    each the score of its risk, which is one of 0, 1, 3, 6, 9 and 10, and
    every finding is counted in exactly one bucket: the four counts of the
    summary add up to the number of findings. *)
Theorem score_findings_keeps_and_counts (simplified : list finding) :
  v_finding <$> score_findings simplified = simplified ∧
  v_score <$> score_findings simplified = risk_to_score ∘ f_risk <$> simplified ∧
  Forall (fun v => v_score v ∈ [0; 1; 3; 6; 9; 10]) (score_findings simplified) ∧
  foldr (fun kv total => kv.2 + total) 0
    (summarize (bucket_findings (score_findings simplified))) =
    Z.of_nat (length simplified).
Proof.
  unfold score_findings. split_and!.
  - rewrite <- list_fmap_compose. rewrite <- (list_fmap_id simplified) at 2.
    apply list_fmap_ext. intros i a _. apply enrich_suggestions_keeps.
  - rewrite <- list_fmap_compose.
    apply list_fmap_ext. intros i a _. apply enrich_suggestions_keeps.
  - apply Forall_fmap, Forall_forall. intros a _. cbn [compose].
    rewrite (proj2 (enrich_suggestions_keeps _)). apply risk_to_score_values.
  - by rewrite summary_counts_add_up, length_fmap.
Qed.

Lemma lower_app (s1 s2 : string) : lower (s1 +:+ s2) = lower s1 +:+ lower s2.
Proof.
  induction s1 as [|c s1 IH]; [done|].
  change (String (lower_ascii c) (lower (s1 +:+ s2)) =
          String (lower_ascii c) (lower s1 +:+ lower s2)).
  by rewrite IH.
Qed.

Lemma startswith_app (p s : string) : startswith p (p +:+ s) = true.
Proof.
  induction p as [|c p IH]; [done|].
  change (startswith (String c p) (String c (p +:+ s)) = true).
  cbn [startswith]. by rewrite Ascii.eqb_refl.
Qed.

Lemma contains_startswith (sub s : string) :
  startswith sub s = true → contains sub s = true.
Proof. destruct s; cbn [contains]; by intros ->. Qed.

Lemma contains_app (sub pre post : string) :
  contains sub (pre +:+ sub +:+ post) = true.
Proof.
  induction pre as [|c pre IH].
  - change (contains sub (sub +:+ post) = true).
    apply contains_startswith, startswith_app.
  - change (contains sub (String c (pre +:+ sub +:+ post)) = true).
    cbn [contains]. rewrite IH. apply orb_true_r.
Qed.

Lemma startswith_prefix (p s : string) :
  startswith p s = true → ∃ rest, s = p +:+ rest.
Proof.
  revert s. induction p as [|a p IH]; intros s; [by exists s|].
  destruct s as [|b s]; [done|]. cbn.
  destruct (Ascii.eqb a b) eqn:Hab; [|done].
  apply Ascii.eqb_eq in Hab as ->.
  intros [rest ->]%IH. by exists rest.
Qed.

(** [contains] is the substring test. *)
Lemma contains_spec (sub s : string) :
  contains sub s = true ↔ ∃ pre post, s = pre +:+ sub +:+ post.
Proof.
  split; [|intros (pre & post & ->); apply contains_app].
  induction s as [|c s IH]; cbn [contains].
  - rewrite orb_false_r. intros [rest ->]%startswith_prefix. by exists "", rest.
  - intros [[rest ->]%startswith_prefix|(pre & post & ->)%IH]%orb_true_iff.
    + by exists "", rest.
    + by exists (String c pre), post.
Qed.

Lemma str_of_or_empty (s : string) : str_of (PStr s ||| PStr "") = s.
Proof.
  unfold por. cbn [truthy]. destruct (String.eqb s "") eqn:Hs; [|done].
  by apply String.eqb_eq in Hs as ->.
Qed.

Lemma first_suggestion_first_match (table : list (string * string)) i key
    suggestion (name : string) :
  table !! i = Some (key, suggestion) →
  contains (lower key) (lower name) = true →
  Forall (fun kv => contains (lower kv.1) (lower name) = false) (take i table) →
  first_suggestion table (PStr name) = Some suggestion.
Proof.
  revert i. induction table as [|[k s] table IH]; intros i Hi Hmatch Hearlier;
    [done|].
  cbn [first_suggestion]. rewrite str_of_or_empty.
  destruct i as [|i].
  - injection Hi as -> ->. by rewrite Hmatch.
  - cbn in Hearlier. apply Forall_cons in Hearlier as [Hk Hearlier].
    cbn [fst] in Hk. rewrite Hk. by apply (IH i).
Qed.

Lemma first_suggestion_no_match (table : list (string * string)) (name : string) :
  Forall (fun kv => contains (lower kv.1) (lower name) = false) table →
  first_suggestion table (PStr name) = None.
Proof.
  induction 1 as [|[k s] table Hk _ IH]; [done|].
  cbn [first_suggestion]. rewrite str_of_or_empty. cbn [fst] in Hk.
  by rewrite Hk.
Qed.

(** X9. The advice is matched without regard to letter case and the first
    entry of the table wins: when the name of a finding, made of ASCII
    characters, contains some spelling of the key of an entry and of no
    earlier key, the finding gets the suggestion of that entry and nothing
    else of it changes; when it contains no key at all, it is returned as
    it was. *)
Theorem enrich_suggestions_first_match (a : vuln) (name : string) :
  f_name (v_finding a) = PStr name →
  is_ascii name = true →
  (∀ i key suggestion pre spelling post,
     CUSTOM_SUGGESTIONS !! i = Some (key, suggestion) →
     name = pre +:+ spelling +:+ post →
     lower spelling = lower key →
     Forall (fun kv => contains (lower kv.1) (lower name) = false)
       (take i CUSTOM_SUGGESTIONS) →
     enrich_suggestions a =
       {| v_finding := v_finding a; v_score := v_score a;
          v_extra_suggestion := Some suggestion |}) ∧
  (Forall (fun kv => contains (lower kv.1) (lower name) = false)
     CUSTOM_SUGGESTIONS →
   enrich_suggestions a = a).
Proof.
  intros Hname _. split.
  - intros i key suggestion pre spelling post Hi -> Hspelling Hearlier.
    unfold enrich_suggestions. rewrite Hname.
    rewrite (first_suggestion_first_match _ i key suggestion); try done.
    rewrite !lower_app, Hspelling. apply contains_app.
  - intros Hnone. unfold enrich_suggestions.
    by rewrite Hname, first_suggestion_no_match.
Qed.

Lemma enrich_suggestions_first_match_witness :
  enrich_suggestions
    (add_score {| f_name := PStr "Reflected SQL injection via CSP report";
                  f_risk := PStr "High"; f_urls := []; f_params := [];
                  f_description := PStr ""; f_solution := PStr "";
                  f_reference := PStr "" |}) =
    {| v_finding := {| f_name := PStr "Reflected SQL injection via CSP report";
                       f_risk := PStr "High"; f_urls := []; f_params := [];
                       f_description := PStr ""; f_solution := PStr "";
                       f_reference := PStr "" |};
       v_score := 9;
       v_extra_suggestion :=
         Some "Use parameterized queries/ORM. Never concatenate user input into SQL." |}.
Proof.
  refine (proj1 (enrich_suggestions_first_match
                   (add_score {| f_name := PStr "Reflected SQL injection via CSP report";
                                 f_risk := PStr "High"; f_urls := []; f_params := [];
                                 f_description := PStr ""; f_solution := PStr "";
                                 f_reference := PStr "" |})
                   "Reflected SQL injection via CSP report" _ _)
            1%nat "SQL Injection" _ "Reflected " "SQL injection" " via CSP report" _ _ _ _);
    try reflexivity.
  repeat constructor.
Defined.

(** * Further properties of the scan *)

(** X10. The target that the spider hands to the engine always starts with
    "http": a target that already does is passed as it is, any other gets
    "http://" in front, and doing this twice changes nothing more. *)
Theorem with_scheme_starts_with_http (target : string) :
  startswith "http" (with_scheme target) = true ∧
  with_scheme target =
    (if startswith "http" target then target else "http://" +:+ target) ∧
  with_scheme (with_scheme target) = with_scheme target.
Proof.
  assert (startswith "http" (with_scheme target) = true) as Hhttp.
  { unfold with_scheme. by destruct (startswith "http" target) eqn:Hs. }
  split_and!; [done|done|].
  unfold with_scheme at 1. by rewrite Hhttp.
Qed.

Section ScanFacts.

Context {E : Type} (svc : services E).
Implicit Types (w : world E).

Lemma spider_poll_clock fuel spider_id start timeout w :
  timeout + 2 - (clock w - start) ≤ Z.of_nat fuel →
  (1 ≤ fuel)%nat →
  ∃ w',
    spider_poll svc fuel spider_id start timeout w = (Ok tt, w') ∧
    clock w ≤ clock w' ∧
    clock w' ≤ Z.max (clock w) (start + timeout + 1) ∧
    last_scan w' = last_scan w.
Proof.
  revert w. induction fuel as [|fuel IH]; intros w Hfuel Hpos; [lia|].
  rewrite spider_poll_S. cbv zeta.
  destruct (_ || _) eqn:Hexit.
  - eexists. split; [done|]. cbn [clock last_scan]. split_and!; [lia|lia|done].
  - apply orb_false_iff in Hexit as [_ Hlate%Z.ltb_ge].
    edestruct (IH (World (clock w + 1)
                     (zap_spider_status svc spider_id (ext w)).2 (last_scan w)))
      as (w' & Hpoll & Hlo & Hhi & Hstore); [cbn [clock]; lia|lia|].
    exists w'. cbn [clock last_scan] in *. split_and!; [done|lia|lia|done].
Qed.

(** How the spider phase can end, with the seconds it has slept. *)
Lemma spider_and_get_alerts_outcome fuel target w :
  (enough_fuel ≤ fuel)%nat →
  ∃ r w',
    spider_and_get_alerts svc fuel target 60 w = (r, w') ∧
    clock w ≤ clock w' ≤ clock w + 63 ∧
    last_scan w' = last_scan w ∧
    match r with
    | Ok alerts =>
        clock w + 2 ≤ clock w' ∧
        ∃ e0 e1, zap_core_alerts svc (with_scheme target) e0 = (Returns alerts, e1)
    | Raise e =>
        throws (zap_urlopen svc) e ∨ throws (zap_spider_scan svc) e ∨
        throws (zap_core_alerts svc) e
    | OutOfFuel => False
    end.
Proof.
  intros Hfuel. unfold enough_fuel in Hfuel. unfold spider_and_get_alerts.
  destruct (zap_urlopen svc (with_scheme target) (ext w)) as [[[]|e] e1] eqn:Hopen.
  2: { eexists _, _. split.
       - apply bind_Raise. by apply call_throws.
       - cbn [clock last_scan]. split_and!; [lia|lia|done|].
         left. by eexists _, _, _. }
  erewrite bind_Ok by (by apply call_returns).
  erewrite bind_Ok by reflexivity. cbn [ext clock last_scan].
  destruct (zap_spider_scan svc (with_scheme target) e1) as [[spider_id|e] e2]
    eqn:Hscan.
  2: { eexists _, _. split.
       - apply bind_Raise. by apply call_throws.
       - cbn [clock last_scan]. split_and!; [lia|lia|done|].
         right. left. by eexists _, _, _. }
  erewrite bind_Ok by (by apply call_returns).
  erewrite bind_Ok by reflexivity. cbn [ext clock last_scan].
  edestruct (spider_poll_clock fuel spider_id (clock w + 1) 60
               (World (clock w + 1) e2 (last_scan w)))
    as (w2 & Hpoll & Hlo & Hhi & Hstore); [cbn [clock]; lia|lia|].
  cbn [clock last_scan] in Hlo, Hhi, Hstore.
  erewrite bind_Ok by exact Hpoll.
  erewrite bind_Ok by reflexivity.
  destruct (zap_core_alerts svc (with_scheme target) (ext w2)) as [[alerts|e] e3]
    eqn:Halerts.
  - eexists _, _. split; [by apply call_returns|].
    cbn [clock last_scan]. split_and!; [lia|lia|done|lia|by eexists _, _].
  - eexists _, _. split; [by apply call_throws|].
    cbn [clock last_scan]. split_and!; [lia|lia|done|].
    right. right. by eexists _, _, _.
Qed.

(** X11. A status read of the spider that fails does not fail the spider
    phase: whenever opening the target, starting the spider and fetching
    the alerts return, [spider_and_get_alerts] returns the alerts that the
    engine reports for the target with its scheme, whatever the status
    reads do, and leaves [last_scan] alone. *)
Theorem spider_tolerates_status_failures fuel target w :
  (enough_fuel ≤ fuel)%nat →
  never_throws (zap_urlopen svc) →
  never_throws (zap_spider_scan svc) →
  never_throws (zap_core_alerts svc) →
  ∃ alerts w' e0 e1,
    spider_and_get_alerts svc fuel target 60 w = (Ok alerts, w') ∧
    zap_core_alerts svc (with_scheme target) e0 = (Returns alerts, e1) ∧
    last_scan w' = last_scan w.
Proof.
  intros Hfuel Hopen Hscan Hcore.
  destruct (spider_and_get_alerts_outcome fuel target w Hfuel)
    as (r & w' & Hrun & _ & Hstore & Hr).
  destruct r as [alerts|e|]; [| |done].
  - destruct Hr as (_ & e0 & e1 & Halerts). by exists alerts, w', e0, e1.
  - exfalso. destruct Hr as [He|[He|He]]; destruct He as (a & e0 & e1 & He).
    + destruct (Hopen a e0) as (? & ? & ?). congruence.
    + destruct (Hscan a e0) as (? & ? & ?). congruence.
    + destruct (Hcore a e0) as (? & ? & ?). congruence.
Qed.

(** X12. The spider phase never outlasts its bound: however it ends, it has
    slept at most 63 seconds in all (one before the spider starts, at most
    61 in the loop, one after it), and at least 2 when it returns alerts. *)
Theorem spider_sleeps_at_most_63_seconds fuel target w :
  (enough_fuel ≤ fuel)%nat →
  clock w ≤ clock (spider_and_get_alerts svc fuel target 60 w).2
    ≤ clock w + 63 ∧
  (∀ alerts,
     (spider_and_get_alerts svc fuel target 60 w).1 = Ok alerts →
     clock w + 2 ≤ clock (spider_and_get_alerts svc fuel target 60 w).2) ∧
  (spider_and_get_alerts svc fuel target 60 w).1 ≠ OutOfFuel.
Proof.
  intros Hfuel.
  destruct (spider_and_get_alerts_outcome fuel target w Hfuel)
    as (r & w' & -> & Hclock & _ & Hr).
  cbn [fst snd]. split_and!; [lia|lia| |].
  - intros alerts ->. by destruct Hr as [? _].
  - by intros ->.
Qed.

End ScanFacts.

Lemma spider_tolerates_status_failures_witness :
  ∃ alerts w' e0 e1,
    spider_and_get_alerts silent_spider_engine 100 "a.example" 60 Sim.boot =
      (Ok alerts, w') ∧
    zap_core_alerts silent_spider_engine (with_scheme "a.example") e0 =
      (Returns alerts, e1) ∧
    last_scan w' = last_scan Sim.boot.
Proof.
  apply (spider_tolerates_status_failures silent_spider_engine 100 "a.example" Sim.boot).
  - unfold enough_fuel. lia.
  - intros a e. by eexists _, _.
  - intros a e. by eexists _, _.
  - intros a e. by eexists _, _.
Defined.

Lemma spider_sleeps_at_most_63_seconds_witness :
  clock (spider_and_get_alerts silent_spider_engine 100 "a.example" 60 Sim.boot).2 =
    clock Sim.boot + 63 ∧
  clock (spider_and_get_alerts stalled_engine 100 "a.example" 60 Sim.boot).2 =
    clock Sim.boot + 2 ∧
  clock Sim.boot ≤
    clock (spider_and_get_alerts silent_spider_engine 100 "a.example" 60 Sim.boot).2
    ≤ clock Sim.boot + 63.
Proof.
  split_and!; [by vm_compute|by vm_compute| |];
    apply (spider_sleeps_at_most_63_seconds silent_spider_engine 100 "a.example" Sim.boot);
    unfold enough_fuel; lia.
Defined.

(** ** Levels below 2 leave the active scanner alone *)

Lemma bind_ext {E A B} (m1 m2 : M E A) (k1 k2 : A → M E B) (w : world E) :
  m1 w = m2 w → (∀ a w1, k1 a w1 = k2 a w1) → bind m1 k1 w = bind m2 k2 w.
Proof.
  intros Hm Hk. unfold bind. rewrite Hm.
  destruct (m2 w) as [[a|e|] w1]; [apply Hk|done|done].
Qed.

Section Agreement.

Context {E : Type} (svc1 svc2 : services E).
Hypothesis Hagree : agree_off_active_scan svc1 svc2.

Lemma spider_poll_agree fuel spider_id start timeout (w : world E) :
  spider_poll svc1 fuel spider_id start timeout w =
    spider_poll svc2 fuel spider_id start timeout w.
Proof.
  revert w. induction fuel as [|fuel IH]; intros w; [done|].
  rewrite !spider_poll_S, (same_spider_status _ _ Hagree). cbv zeta.
  destruct (_ || _); [done|apply IH].
Qed.

Lemma spider_and_get_alerts_agree fuel target timeout (w : world E) :
  spider_and_get_alerts svc1 fuel target timeout w =
    spider_and_get_alerts svc2 fuel target timeout w.
Proof.
  unfold spider_and_get_alerts.
  rewrite (same_urlopen _ _ Hagree), (same_spider_scan _ _ Hagree),
    (same_core_alerts _ _ Hagree).
  apply bind_ext; [done|intros _ w1].
  apply bind_ext; [done|intros _ w2].
  apply bind_ext; [done|intros spider_id w3].
  apply bind_ext; [done|intros start w4].
  apply bind_ext; [apply spider_poll_agree|done].
Qed.

Lemma scan_report_agree alerts ascan_id target level (w : world E) :
  scan_report svc1 alerts ascan_id target level w =
    scan_report svc2 alerts ascan_id target level w.
Proof.
  unfold scan_report, ai_analyze, now_text.
  by rewrite (same_generate_content _ _ Hagree), (same_utcnow_strftime _ _ Hagree).
Qed.

(** X13. Below level 2 the scan does not use the active scanner at all:
    two engines that differ only in how they start and report active scans
    give the same response and leave the same world, at level 1, 0 and any
    negative level. *)
Theorem scan_below_level_2_skips_active_scan fuel data (w : world E) :
  requested_level data < 2 →
  scan svc1 fuel data w = scan svc2 fuel data w.
Proof.
  intros Hlevel%Z.leb_gt. unfold scan.
  rewrite (same_validators_url _ _ Hagree).
  destruct (_ || _); [done|].
  unfold try_except.
  assert (scan_steps svc1 fuel (requested_target data) (requested_level data) w =
          scan_steps svc2 fuel (requested_target data) (requested_level data) w)
    as ->; [|done].
  unfold scan_steps, scan_collect. rewrite Hlevel.
  apply bind_ext.
  - apply bind_ext; [apply spider_and_get_alerts_agree|done].
  - intros [alerts ascan_id] w1. apply bind_ext; [apply scan_report_agree|done].
Qed.

End Agreement.

Lemma scan_below_level_2_skips_active_scan_witness :
  scan stalled_engine 100 (Sim.request "http://a" 1) Sim.boot =
    scan passive_engine 100 (Sim.request "http://a" 1) Sim.boot.
Proof.
  apply (scan_below_level_2_skips_active_scan stalled_engine passive_engine).
  - by split.
  - reflexivity.
Defined.

(** ** Failures of the active scan, old reports and the returned report *)

Section ReportFacts.

Context {E : Type} (svc : services E).
Implicit Types (w : world E).

Lemma spider_and_get_alerts_returns fuel target w :
  (enough_fuel ≤ fuel)%nat →
  never_throws (zap_urlopen svc) →
  never_throws (zap_spider_scan svc) →
  never_throws (zap_core_alerts svc) →
  ∃ alerts w',
    spider_and_get_alerts svc fuel target 60 w = (Ok alerts, w') ∧
    last_scan w' = last_scan w.
Proof.
  intros Hfuel Hopen Hscan Hcore.
  destruct (spider_and_get_alerts_outcome svc fuel target w Hfuel)
    as (r & w' & Hrun & _ & Hstore & Hr).
  destruct r as [alerts|e|]; [by exists alerts, w'| |done].
  exfalso. destruct Hr as [He|[He|He]]; destruct He as (a & e0 & e1 & He).
  - destruct (Hopen a e0) as (? & ? & ?). congruence.
  - destruct (Hscan a e0) as (? & ? & ?). congruence.
  - destruct (Hcore a e0) as (? & ? & ?). congruence.
Qed.

(** X14. Unlike the spider's, a status read of the active scan that fails
    ends the scan: from level 2 on, when the other engine calls return and
    the status of the active scan cannot be read, the request is answered
    with 500 and the text of that failure, and [last_scan] stays as it
    was. *)
Theorem active_scan_status_failure_aborts fuel data w e :
  (enough_fuel ≤ fuel)%nat →
  requested_target data ≠ "" →
  validators_url svc (requested_target data) = true →
  2 ≤ requested_level data →
  never_throws (zap_urlopen svc) →
  never_throws (zap_spider_scan svc) →
  never_throws (zap_core_alerts svc) →
  never_throws (zap_ascan_scan svc) →
  (∀ ascan_id e0, (zap_ascan_status svc ascan_id e0).1 = Throws e) →
  ∃ w',
    scan svc fuel data w = (Ok (Response 500 (JError e)), w') ∧
    last_scan w' = last_scan w.
Proof.
  intros Hfuel Hnonempty Hvalid Hlevel%Z.leb_le Hopen Hscan Hcore Hstart Hstatus.
  rewrite scan_valid by done.
  destruct (spider_and_get_alerts_returns fuel (requested_target data) w)
    as (alerts & w1 & Hspider & Hstore); try done.
  destruct (Hstart (requested_target data) (ext w1)) as (ascan_id & e1 & Hid).
  assert (ascan_poll svc fuel ascan_id (clock w1)
            (World (clock w1) e1 (last_scan w1)) =
          (Raise e, World (clock w1)
                      (zap_ascan_status svc ascan_id e1).2 (last_scan w1)))
    as Hpoll.
  { unfold enough_fuel in Hfuel. destruct fuel as [|fuel]; [lia|].
    rewrite ascan_poll_S. cbv zeta. cbn [ext clock last_scan].
    by rewrite Hstatus. }
  eexists. split.
  - erewrite try_except_Raise; [reflexivity|].
    unfold scan_steps, scan_collect. rewrite Hlevel.
    apply bind_Raise.
    erewrite bind_Ok by exact Hspider.
    apply bind_Raise.
    erewrite bind_Ok by (by apply call_returns).
    erewrite bind_Ok by reflexivity.
    apply bind_Raise. exact Hpoll.
  - done.
Qed.

Lemma scan_steps_Ok_inv fuel target level w resp w' :
  scan_steps svc fuel target level w = (Ok resp, w') →
  ∃ alerts ascan_id w1 rep w2,
    scan_collect svc fuel target level w = (Ok (alerts, ascan_id), w1) ∧
    scan_report svc alerts ascan_id target level w1 = (Ok rep, w2) ∧
    resp = Response 200 (JReport rep) ∧
    w' = World (clock w2) (ext w2) (Some rep).
Proof.
  unfold scan_steps, bind.
  destruct (scan_collect svc fuel target level w)
    as [[[alerts ascan_id]|e|] w1]; [|done|done].
  destruct (scan_report svc alerts ascan_id target level w1)
    as [[rep|e|] w2] eqn:Hreport; [|done|done].
  cbn. intros [= <- <-]. by eexists _, _, _, _, _.
Qed.

(** X15. Every report that [scan] returns is consistent: it echoes the
    stripped target, which is not empty and passed the validator, and the
    level; its findings have pairwise distinct names; its summary has the
    keys Critical, High, Medium and Low, in this order, with the sizes of
    the buckets of its own findings, which add up to the number of
    findings; and it is the report that [last_scan] now holds. *)
Theorem returned_report_is_consistent fuel data w rep w' :
  scan svc fuel data w = (Ok (Response 200 (JReport rep)), w') →
  r_target rep = requested_target data ∧
  r_target rep ≠ "" ∧
  validators_url svc (r_target rep) = true ∧
  r_level rep = requested_level data ∧
  NoDup (f_name ∘ v_finding <$> r_vulnerabilities rep) ∧
  r_summary rep = summarize (bucket_findings (r_vulnerabilities rep)) ∧
  (r_summary rep).*1 = ["Critical"; "High"; "Medium"; "Low"] ∧
  foldr (fun kv total => kv.2 + total) 0 (r_summary rep) =
    Z.of_nat (length (r_vulnerabilities rep)) ∧
  last_scan w' = Some rep.
Proof.
  unfold scan.
  destruct (String.eqb (requested_target data) "") eqn:Hempty; [done|].
  destruct (validators_url svc (requested_target data)) eqn:Hvalid; [|done].
  cbn [orb negb]. unfold try_except.
  destruct (scan_steps svc fuel (requested_target data) (requested_level data) w)
    as [[resp|e|] w1] eqn:Hsteps; [|done|done].
  intros [= -> ->].
  apply scan_steps_Ok_inv in Hsteps
    as (alerts & ascan_id & w1 & rep' & w2 & _ & Hreport & [= <-] & ->).
  destruct (scan_report_returns svc alerts ascan_id (requested_target data)
              (requested_level data) w1)
    as (rep' & w2' & Hreport' & Htarget & Hlevel & Hvulns & Hsummary & _).
  rewrite Hreport in Hreport'. injection Hreport' as <- _.
  apply String.eqb_neq in Hempty.
  rewrite Htarget, Hlevel. split_and!; try done.
  - rewrite Hvulns, list_fmap_compose.
    assert (v_finding <$> score_findings (simplify_alerts alerts) =
            simplify_alerts alerts) as ->.
    { unfold score_findings. rewrite <- list_fmap_compose.
      rewrite <- (list_fmap_id (simplify_alerts alerts)) at 2.
      apply list_fmap_ext. intros i a _. apply enrich_suggestions_keeps. }
    rewrite simplify_alerts_names. apply fromkeys_NoDup.
  - by rewrite Hsummary.
  - rewrite Hsummary. apply summary_counts_add_up.
Qed.

End ReportFacts.

Lemma active_scan_status_failure_aborts_witness :
  ∃ w',
    scan broken_engine 100 (Sim.request "http://a" 3) Sim.boot =
      (Ok (Response 500 (JError "ZAP is not reachable")), w') ∧
    last_scan w' = last_scan Sim.boot.
Proof.
  apply (active_scan_status_failure_aborts broken_engine 100
           (Sim.request "http://a" 3) Sim.boot "ZAP is not reachable").
  - unfold enough_fuel. lia.
  - by vm_compute.
  - reflexivity.
  - by vm_compute.
  - intros a e. by eexists _, _.
  - intros a e. by eexists _, _.
  - intros a e. by eexists _, _.
  - intros a e. by eexists _, _.
  - reflexivity.
Defined.

Lemma returned_report_is_consistent_witness :
  ∃ rep w',
    scan stalled_engine 100 (Sim.request "  http://a " 3) Sim.boot =
      (Ok (Response 200 (JReport rep)), w') ∧
    r_target rep = "http://a" ∧
    NoDup (f_name ∘ v_finding <$> r_vulnerabilities rep) ∧
    foldr (fun kv total => kv.2 + total) 0 (r_summary rep) =
      Z.of_nat (length (r_vulnerabilities rep)) ∧
    last_scan w' = Some rep.
Proof.
  eexists _, _. split; [by vm_compute|].
  edestruct (returned_report_is_consistent stalled_engine 100
               (Sim.request "  http://a " 3) Sim.boot)
    as (Htarget & _ & _ & _ & Hnames & _ & _ & Hcount & Hstore);
    [by vm_compute|].
  split_and!; [exact Htarget|exact Hnames|exact Hcount|exact Hstore].
Defined.

(** ** A scan does not look at the report of an earlier scan *)

Section StoreFacts.

Context {E : Type} (svc : services E).
Implicit Types (w : world E).

Lemma ignores_store_ret {A} (a : A) : ignores_store (ret (E:=E) a).
Proof. by intros w s. Qed.

Lemma ignores_store_bind {A B} (m : M E A) (k : A → M E B) :
  ignores_store m → (∀ a, ignores_store (k a)) → ignores_store (bind m k).
Proof.
  intros Hm Hk w s. unfold bind. rewrite (Hm w s).
  destruct (m w) as [[a|e|] w1]; cbn [fst snd]; [|done|done].
  by rewrite (Hk a w1 s).
Qed.

Lemma ignores_store_try_except {A} (m : M E A) (handler : string → M E A) :
  ignores_store m → (∀ e, ignores_store (handler e)) →
  ignores_store (try_except m handler).
Proof.
  intros Hm Hh w s. unfold try_except. rewrite (Hm w s).
  destruct (m w) as [[a|e|] w1]; cbn [fst snd]; [done| |done].
  by rewrite (Hh e w1 s).
Qed.

Lemma ignores_store_call {A} (f : E → answer A * E) : ignores_store (call f).
Proof. intros w s. by rewrite !call_eq. Qed.

Lemma ignores_store_time_time : ignores_store (time_time (E:=E)).
Proof. by intros w s. Qed.

Lemma ignores_store_time_sleep seconds : ignores_store (time_sleep (E:=E) seconds).
Proof. by intros w s. Qed.

Lemma ignores_store_out_of_fuel {A} : ignores_store (out_of_fuel (E:=E) (A:=A)).
Proof. by intros w s. Qed.

Lemma ignores_store_now_text : ignores_store (now_text svc).
Proof. by intros w s. Qed.

Create HintDb ignores discriminated.
#[local] Hint Resolve ignores_store_ret ignores_store_call ignores_store_time_time
  ignores_store_time_sleep ignores_store_out_of_fuel ignores_store_now_text
  : ignores.

(** Walks through a sequence of statements that leave the store alone. *)
Ltac ignores_store_steps :=
  repeat first
    [ apply ignores_store_bind; [|intros ?]
    | apply ignores_store_try_except; [|intros ?] ];
  auto with ignores.

Lemma ignores_store_spider_poll fuel spider_id start timeout :
  ignores_store (spider_poll svc fuel spider_id start timeout).
Proof.
  induction fuel as [|fuel IH]; cbn [spider_poll]; [auto with ignores|].
  apply ignores_store_bind; [ignores_store_steps|intros st].
  apply ignores_store_bind; [ignores_store_steps|intros now].
  destruct ((100 <=? st) || (timeout <? now - start)); ignores_store_steps.
Qed.

Lemma ignores_store_ascan_poll fuel ascan_id start :
  ignores_store (ascan_poll svc fuel ascan_id start).
Proof.
  induction fuel as [|fuel IH]; cbn [ascan_poll]; [auto with ignores|].
  apply ignores_store_bind; [ignores_store_steps|intros st].
  destruct (st <? 100); [|ignores_store_steps].
  apply ignores_store_bind; [ignores_store_steps|intros now].
  destruct (90 <? now - start); ignores_store_steps.
Qed.

Lemma ignores_store_scan_collect fuel target level :
  ignores_store (scan_collect svc fuel target level).
Proof.
  unfold scan_collect. apply ignores_store_bind.
  - unfold spider_and_get_alerts. ignores_store_steps.
    apply ignores_store_spider_poll.
  - intros alerts. apply ignores_store_bind.
    + destruct (2 <=? level); ignores_store_steps.
      apply ignores_store_ascan_poll.
    + intros [alerts' ascan_id]. ignores_store_steps.
Qed.

Lemma ignores_store_scan_report alerts ascan_id target level :
  ignores_store (scan_report svc alerts ascan_id target level).
Proof. unfold scan_report, ai_analyze. ignores_store_steps. Qed.

(** X16. A scan never reads [last_scan]: whatever report an earlier scan
    left there, the response, the clock and the outside world come out
    the same, and so does the store when the scan succeeds, which then
    holds the new report and nothing of the old one; when the scan does
    not succeed the store holds what it held. *)
Theorem scan_ignores_previous_report fuel data w s :
  (scan svc fuel data (World (clock w) (ext w) s)).1 = (scan svc fuel data w).1 ∧
  clock (scan svc fuel data (World (clock w) (ext w) s)).2 =
    clock (scan svc fuel data w).2 ∧
  ext (scan svc fuel data (World (clock w) (ext w) s)).2 =
    ext (scan svc fuel data w).2 ∧
  ((∃ rep,
      (scan svc fuel data w).1 = Ok (Response 200 (JReport rep)) ∧
      last_scan (scan svc fuel data w).2 = Some rep ∧
      last_scan (scan svc fuel data (World (clock w) (ext w) s)).2 = Some rep) ∨
   ((∀ rep, (scan svc fuel data w).1 ≠ Ok (Response 200 (JReport rep))) ∧
    last_scan (scan svc fuel data w).2 = last_scan w ∧
    last_scan (scan svc fuel data (World (clock w) (ext w) s)).2 = s)).
Proof.
  unfold scan. destruct (_ || _).
  { cbn. split_and!; try done. right. by split_and!. }
  unfold try_except, scan_steps, bind.
  rewrite (ignores_store_scan_collect fuel (requested_target data)
             (requested_level data) w s).
  pose proof (keeps_store_scan_collect svc fuel (requested_target data)
                (requested_level data) w) as Hkeep.
  destruct (scan_collect svc fuel (requested_target data) (requested_level data) w)
    as [[[alerts ascan_id]|e|] w1]; cbn [fst snd] in *.
  - rewrite (ignores_store_scan_report alerts ascan_id (requested_target data)
               (requested_level data) w1 s).
    pose proof (keeps_store_scan_report svc alerts ascan_id (requested_target data)
                  (requested_level data) w1) as Hkeep'.
    destruct (scan_report svc alerts ascan_id (requested_target data)
                (requested_level data) w1) as [[rep|e|] w2]; cbn in *.
    + split_and!; try done. left. by exists rep.
    + split_and!; try done. right. split_and!; [done|congruence|done].
    + split_and!; try done. right. split_and!; [done|congruence|done].
  - cbn. split_and!; try done. right. by split_and!.
  - cbn. split_and!; try done. right. by split_and!.
Qed.

End StoreFacts.

(** ** How long a scan sleeps *)

Section ClockFacts.

Context {E : Type} (svc : services E).
Implicit Types (w : world E).

Lemma ascan_poll_clock fuel ascan_id start w :
  92 - (clock w - start) ≤ Z.of_nat fuel →
  (1 ≤ fuel)%nat →
  clock w ≤ clock (ascan_poll svc fuel ascan_id start w).2
    ≤ Z.max (clock w) (start + 91) ∧
  (ascan_poll svc fuel ascan_id start w).1 ≠ OutOfFuel.
Proof.
  revert w. induction fuel as [|fuel IH]; intros w Hfuel Hpos; [lia|].
  rewrite ascan_poll_S. cbv zeta.
  destruct (zap_ascan_status svc ascan_id (ext w)) as [[st|e] e1];
    cbn [fst snd]; [|cbn; split; [lia|done]].
  destruct (st <? 100); [|cbn; split; [lia|done]].
  destruct (90 <? clock w - start) eqn:Hlate; [cbn; split; [lia|done]|].
  apply Z.ltb_ge in Hlate.
  destruct (IH (World (clock w + 1) e1 (last_scan w))) as [Hclock Hfinish];
    [cbn [clock]; lia|lia|].
  cbn [clock] in Hclock. split; [lia|done].
Qed.

Lemma scan_report_eq alerts ascan_id target level w :
  ∃ rep e',
    scan_report svc alerts ascan_id target level w =
      (Ok rep, World (clock w) e' (last_scan w)).
Proof.
  unfold scan_report.
  erewrite bind_Ok by apply ai_analyze_eq.
  erewrite bind_Ok by reflexivity.
  by eexists _, _.
Qed.

Lemma scan_collect_clock fuel target level w :
  (enough_fuel ≤ fuel)%nat →
  clock w ≤ clock (scan_collect svc fuel target level w).2
    ≤ clock w + (if 2 <=? level then 154 else 63) ∧
  (scan_collect svc fuel target level w).1 ≠ OutOfFuel.
Proof.
  intros Hfuel.
  destruct (spider_and_get_alerts_outcome svc fuel target w Hfuel)
    as (r & w1 & Hspider & Hclock & _ & Hr).
  destruct (scan_collect svc fuel target level w) as [result w'] eqn:Hrun.
  cbn [fst snd].
  unfold scan_collect in Hrun. unfold bind at 1 in Hrun. rewrite Hspider in Hrun.
  destruct r as [alerts|e|]; [| |done].
  2: { injection Hrun as <- <-. split; [destruct (2 <=? level); lia|done]. }
  destruct (2 <=? level).
  2: { cbn in Hrun. injection Hrun as <- <-. split; [lia|done]. }
  unfold bind at 1 2 in Hrun. rewrite call_eq in Hrun.
  destruct (zap_ascan_scan svc target (ext w1)) as [[ascan_id|e] e2];
    cbn [fst snd] in Hrun.
  2: { injection Hrun as <- <-. cbn [clock]. split; [lia|done]. }
  unfold bind at 1, time_time in Hrun. cbn [clock fst snd] in Hrun.
  unfold bind at 1 in Hrun.
  unfold enough_fuel in Hfuel.
  destruct (ascan_poll_clock fuel ascan_id (clock w1)
              (World (clock w1) e2 (last_scan w1))) as [Hpoll Hfinish];
    [cbn [clock]; lia|lia|].
  cbn [clock] in Hpoll.
  destruct (ascan_poll svc fuel ascan_id (clock w1)
              (World (clock w1) e2 (last_scan w1))) as [[[]|e|] w2];
    cbn [fst snd] in *; [| |done].
  2: { injection Hrun as <- <-. split; [lia|done]. }
  unfold bind at 1 in Hrun. rewrite call_eq in Hrun.
  destruct (zap_core_alerts svc target (ext w2)) as [[alerts'|e] e3];
    cbn in Hrun; injection Hrun as <- <-; cbn [clock]; split; first [lia|done].
Qed.

(** X17. A scan never blocks for good: whatever the engine does, the
    request has slept at most 63 seconds when its level is below 2 and at
    most 154 seconds otherwise (63 for the spider, 91 for the active
    scan), and it is answered. *)
Theorem scan_sleeps_at_most_154_seconds fuel data w :
  (enough_fuel ≤ fuel)%nat →
  clock w ≤ clock (scan svc fuel data w).2
    ≤ clock w + (if 2 <=? requested_level data then 154 else 63) ∧
  ∃ resp, (scan svc fuel data w).1 = Ok resp.
Proof.
  intros Hfuel.
  destruct (scan svc fuel data w) as [result w'] eqn:Hrun. cbn [fst snd].
  unfold scan in Hrun.
  destruct (_ || _).
  { injection Hrun as <- <-.
    split; [destruct (2 <=? requested_level data); lia|by eexists]. }
  destruct (scan_collect_clock fuel (requested_target data) (requested_level data)
              w Hfuel) as [Hclock Hfinish].
  unfold try_except, scan_steps in Hrun. unfold bind at 1 in Hrun.
  destruct (scan_collect svc fuel (requested_target data) (requested_level data) w)
    as [[[alerts ascan_id]|e|] w1]; cbn [fst snd] in *; [| |done].
  2: { injection Hrun as <- <-. split; [done|by eexists]. }
  destruct (scan_report_eq alerts ascan_id (requested_target data)
              (requested_level data) w1) as (rep & e' & Hreport).
  unfold bind in Hrun. rewrite Hreport in Hrun. cbn in Hrun.
  injection Hrun as <- <-. split; [done|by eexists].
Qed.

End ClockFacts.

Lemma scan_sleeps_at_most_154_seconds_witness :
  clock (scan silent_spider_engine 100 (Sim.request "http://a" 2) Sim.boot).2 = 154 ∧
  clock Sim.boot ≤
    clock (scan silent_spider_engine 100 (Sim.request "http://a" 2) Sim.boot).2
    ≤ clock Sim.boot +
      (if 2 <=? requested_level (Sim.request "http://a" 2) then 154 else 63).
Proof.
  split; [by vm_compute|].
  refine (proj1 (scan_sleeps_at_most_154_seconds silent_spider_engine 100
                   (Sim.request "http://a" 2) Sim.boot _)).
  unfold enough_fuel. lia.
Defined.

(** * Further properties of the request handling and of the prompts *)





(** X19. The stored report reaches the generative model only on request:
    when [include_scan] is false, or when no report is stored, the prompt
    of a chat is the fixed instruction followed by the user's message and
    nothing else, and the answer is the model's reply, or 500 with its
    failure. *)
Theorem chat_without_scan_context {E} (svc : services E) data (w : world E) :
  q_include_scan data = false ∨ last_scan w = None →
  requested_message data ≠ "" →
  chat svc data w =
    (Ok match (generate_content svc
                 ("You are a helpful security assistant. Answer concisely and clearly."
                    +:+ nl +:+ "User: " +:+ requested_message data) (ext w)).1 with
        | Returns text => Response 200 (JReply text)
        | Throws e => Response 500 (JError ("AI Chat unavailable: " +:+ e))
        end,
     World (clock w)
       (generate_content svc
          ("You are a helpful security assistant. Answer concisely and clearly."
             +:+ nl +:+ "User: " +:+ requested_message data) (ext w)).2
       (last_scan w)).
Proof.
  intros Hcontext Hmessage. rewrite chat_eq by done.
  assert (chat_prompt (requested_message data) (q_include_scan data) (last_scan w) =
          "You are a helpful security assistant. Answer concisely and clearly."
            +:+ nl +:+ "User: " +:+ requested_message data) as ->; [|done].
  unfold chat_prompt. destruct Hcontext as [-> | ->]; [|done].
  by destruct (last_scan w).
Qed.

Lemma chat_without_scan_context_witness :
  chat broken_engine (ChatRequest (Some " Is CSP enough? ") false)
    (World 7 O (Some (Report "http://a" 1 [] [] "" "" None))) =
    (Ok (Response 200 (JReply "All clear.")),
     World 7 1%nat (Some (Report "http://a" 1 [] [] "" "" None))).
Proof.
  rewrite (chat_without_scan_context broken_engine
             (ChatRequest (Some " Is CSP enough? ") false)
             (World 7 O (Some (Report "http://a" 1 [] [] "" "" None))));
    [reflexivity|by left|by vm_compute].
Defined.

(** X20. The prompts are bounded: findings after the tenth have no effect
    on what [ai_analyze] does, and findings after the eighth of the stored
    report have no effect on the prompt of a chat. *)
Theorem prompts_use_the_first_findings_only {E} (svc : services E)
    (first rest1 rest2 : list vuln) :
  (length first = 10%nat →
   ∀ target level (w : world E),
     ai_analyze svc (first ++ rest1) target level w =
       ai_analyze svc (first ++ rest2) target level w) ∧
  (length first = 8%nat →
   ∀ message include_scan target level summary ai_summary1 ai_summary2
     timestamp1 timestamp2 ascan_id1 ascan_id2,
     chat_prompt message include_scan
       (Some (Report target level summary (first ++ rest1) ai_summary1
                timestamp1 ascan_id1)) =
     chat_prompt message include_scan
       (Some (Report target level summary (first ++ rest2) ai_summary2
                timestamp2 ascan_id2))).
Proof.
  split.
  - intros Hlen target level w. unfold ai_analyze, analyze_prompt.
    by rewrite !take_app_length'.
  - intros Hlen message include_scan target level summary ai_summary1 ai_summary2
      timestamp1 timestamp2 ascan_id1 ascan_id2.
    unfold chat_prompt, chat_brief. cbn [r_vulnerabilities r_target r_summary].
    by rewrite !take_app_length'.
Qed.

Lemma prompts_use_the_first_findings_only_witness :
  ai_analyze stalled_engine
    (replicate 10 (add_score scenario_xss) ++ [add_score scenario_sqli])
    "http://a" 1 Sim.boot =
  ai_analyze stalled_engine
    (replicate 10 (add_score scenario_xss) ++ []) "http://a" 1 Sim.boot.
Proof.
  apply (proj1 (prompts_use_the_first_findings_only stalled_engine
                  (replicate 10 (add_score scenario_xss))
                  [add_score scenario_sqli] [])).
  reflexivity.
Defined.
